(** * mediaserve-common: validate, the service and database classes and
      the API handlers of the server class of index.js

    A shallow embedding of [src/index.js].  JavaScript values are an
    inductive type, strings are [String.string] (one [ascii] per code unit,
    so the strings covered are those whose code units are below 256),
    numbers are the integers [Z], and the effectful methods of the
    [service] class run in a small state monad over the part of the process
    they touch: the [timers] array, the timers pending in the event loop and
    a trace of the calls made to the runtime. *)

From Stdlib Require Import ZArith QArith Lia List Bool Ascii String.
From Stdlib Require Import Numbers.DecimalString Numbers.DecimalZ.
From Stdlib Require Numbers.DecimalFacts Numbers.DecimalPos Numbers.DecimalN.
Import ListNotations.

Set Warnings "-register-all".

Local Close Scope Q_scope.
Local Close Scope Z_scope.
Local Open Scope string_scope.

(* ===================================================================== *)
(** ** Strings: the pieces of the runtime's string library that are used *)
(* ===================================================================== *)

Module Str.

(** The double quote and the backslash, by their codes. *)
Definition dq : string := String "034" "".
Definition bs : string := String "092" "".

(** [\s] of a regular expression, restricted to code units below 256:
    TAB, LF, VT, FF, CR, SPACE and NO-BREAK SPACE. *)
Definition is_space (c : ascii) : bool :=
  match nat_of_ascii c with
  | 9 | 10 | 11 | 12 | 13 | 32 | 160 => true
  | _ => false
  end.

(** [s.replace(/^\s+/g, "")]: the pattern is anchored at the start, so the
    one possible match is the longest run of white space that opens [s]. *)
Fixpoint replace_leading_space (s : string) : string :=
  match s with
  | "" => ""
  | String c r => if is_space c then replace_leading_space r else s
  end.

(** [s.replace(/\s+$/g, "")]: the leftmost position from which white space
    runs to the end of [s] starts the match, so the longest closing run of
    white space goes. *)
Fixpoint replace_trailing_space (s : string) : string :=
  match s with
  | "" => ""
  | String c r =>
      match replace_trailing_space r with
      | "" => if is_space c then "" else String c ""
      | r' => String c r'
      end
  end.

(** [s] without its first [n] characters. *)
Fixpoint drop (n : nat) (s : string) : string :=
  match n, s with
  | S n', String _ r => drop n' r
  | _, _ => s
  end.

(** [s.replace(/^Error: /g, "")]. *)
Definition replace_Error_prefix (s : string) : string :=
  if prefix "Error: " s then drop 7 s else s.

(** [hay.includes(needle)]. *)
Fixpoint includes (needle hay : string) : bool :=
  prefix needle hay ||
  match hay with
  | "" => false
  | String _ r => includes needle r
  end.

(** [Array.prototype.join] on strings already converted. *)
Fixpoint join (sep : string) (l : list string) : string :=
  match l with
  | [] => ""
  | [x] => x
  | x :: r => x ++ sep ++ join sep r
  end.

(** Number of U+0020 characters that open a string, and that close it. *)
Fixpoint leading_blanks (l : list ascii) : nat :=
  match l with
  | c :: r => if Ascii.eqb c " " then S (leading_blanks r) else 0
  | [] => 0
  end.

Definition begins_with_blanks (s : string) : nat :=
  leading_blanks (list_ascii_of_string s).

Definition ends_with_blanks (s : string) : nat :=
  leading_blanks (rev (list_ascii_of_string s)).

(** No white space opens the string; no white space closes it. *)
Definition headed (s : string) : bool :=
  match s with
  | "" => true
  | String c _ => negb (is_space c)
  end.

Definition tailed (s : string) : bool :=
  match rev (list_ascii_of_string s) with
  | [] => true
  | c :: _ => negb (is_space c)
  end.

Definition is_empty (s : string) : bool :=
  match s with "" => true | _ => false end.


(** Decimal rendering of an integer, as [Number.prototype.toString] gives
    for integers in the safe range. *)
Definition of_Z (z : Z) : string := NilEmpty.string_of_int (Z.to_int z).

End Str.

(* ===================================================================== *)
(** ** JavaScript values and the built-ins the source calls              *)
(* ===================================================================== *)

Module JS.

(** The values that reach the code.  An object carries its own enumerable
    properties in the order [for ... in] and [JSON.stringify] visit them.
    An [Error] carries its [name], its [message] (the strings that reading
    these two properties gives; neither is enumerable) and the enumerable
    properties a library may have added to it.  Arrays are dense. *)
Inductive value : Type :=
| VUndefined
| VNull
| VBool (b : bool)
| VNum (z : Z)
| VStr (s : string)
| VArr (items : list value)
| VObj (props : list (string * value))
| VErr (name message : string) (props : list (string * value)).

(** How an asynchronous or throwing call ends: with a value, with a thrown
    value (a rejected promise), or with the process gone. *)
Inductive completion (A : Type) : Type :=
| Return (a : A)
| Throw (e : value)
| Exit (code : Z).
Arguments Return {A} a.
Arguments Throw {A} e.
Arguments Exit {A} code.

(** The conversion to a string that [+], [join], [JSON.parse] and
    [new Error] apply, where it does not throw (see [throws] below): an
    array joins its elements with commas, an error prints as
    [Error.prototype.toString] has it from its name and its message. *)
Fixpoint ToString (v : value) : string :=
  match v with
  | VUndefined => "undefined"
  | VNull => "null"
  | VBool true => "true"
  | VBool false => "false"
  | VNum z => Str.of_Z z
  | VStr s => s
  | VArr items =>
      Str.join ","
        (map (fun x => match x with
                       | VUndefined | VNull => ""
                       | _ => ToString x
                       end) items)
  | VObj _ => "[object Object]"
  | VErr name message _ =>
      if String.eqb name "" then message
      else if String.eqb message "" then name
      else name ++ ": " ++ message
  end.

(** [props] has a property [k] of its own. *)
Definition own (k : string) (props : list (string * value)) : bool :=
  existsb (fun p => String.eqb k (fst p)) props.

(** Where the conversion throws.  An object or an error is converted by
    OrdinaryToPrimitive, which looks up [toString] and then [valueOf] and
    wants one of them callable and giving a primitive.  No value here is
    callable, so a property [toString] of the object's own hides the
    prototype's method, and [valueOf], inherited or not, gives no
    primitive: the conversion throws a [TypeError].  An array converts
    through [join], hence throws when one of its elements does. *)
Fixpoint throws (v : value) : bool :=
  match v with
  | VArr items => existsb throws items
  | VObj props => own "toString" props
  | VErr _ _ props => own "toString" props
  | _ => false
  end.

(** The [TypeError] of a conversion that finds no primitive. *)
Definition cannot_convert : value :=
  VErr "TypeError" "Cannot convert object to primitive value" [].

(** [new Error(message)] for a message whose conversion does not throw: the
    message is converted to a string unless it is [undefined], in which
    case the error has the prototype's empty one. *)
Definition new_Error (message : value) : value :=
  match message with
  | VUndefined => VErr "Error" "" []
  | _ => VErr "Error" (ToString message) []
  end.

(** [new Error(message)] for any message. *)
Definition construct_Error (message : value) : completion value :=
  if throws message then Throw cannot_convert else Return (new_Error message).

(** [Array.prototype.join(sep)] where no element throws. *)
Definition array_join (sep : string) (items : list value) : string :=
  Str.join sep
    (map (fun x => match x with
                   | VUndefined | VNull => ""
                   | _ => ToString x
                   end) items).

(** *** JSON.stringify *)

Definition hex_digit (n : nat) : ascii :=
  if Nat.ltb n 10 then ascii_of_nat (48 + n) else ascii_of_nat (87 + n).

(** QuoteJSONString, one code unit at a time. *)
Definition quote_char (c : ascii) : string :=
  let n := nat_of_ascii c in
  if Ascii.eqb c "034" then Str.bs ++ Str.dq
  else if Ascii.eqb c "092" then Str.bs ++ Str.bs
  else if Nat.eqb n 8 then Str.bs ++ "b"
  else if Nat.eqb n 9 then Str.bs ++ "t"
  else if Nat.eqb n 10 then Str.bs ++ "n"
  else if Nat.eqb n 12 then Str.bs ++ "f"
  else if Nat.eqb n 13 then Str.bs ++ "r"
  else if Nat.ltb n 32 then
    Str.bs ++ "u00" ++ String (hex_digit (n / 16)) (String (hex_digit (n mod 16)) "")
  else String c "".

Fixpoint quote_chars (s : string) : string :=
  match s with
  | "" => ""
  | String c r => quote_char c ++ quote_chars r
  end.

Definition quote (s : string) : string := Str.dq ++ quote_chars s ++ Str.dq.

(** [JSON.stringify(v)] without replacer or indentation; [None] is the
    [undefined] it returns for [undefined].  A property whose value is
    [undefined] is left out of an object and printed [null] in an array.
    An [Error] is an object like another: only its enumerable properties
    are printed, so neither [name] nor [message]. *)
Fixpoint stringify (v : value) : option string :=
  let fix members (ps : list (string * value)) : list string :=
    match ps with
    | [] => []
    | (k, x) :: r =>
        match stringify x with
        | Some t => (quote k ++ ":" ++ t) :: members r
        | None => members r
        end
    end in
  match v with
  | VUndefined => None
  | VNull => Some "null"
  | VBool true => Some "true"
  | VBool false => Some "false"
  | VNum z => Some (Str.of_Z z)
  | VStr s => Some (quote s)
  | VArr items =>
      Some ("[" ++ Str.join ","
                     (map (fun x => match stringify x with
                                    | Some t => t
                                    | None => "null"
                                    end) items) ++ "]")
  | VObj ps => Some ("{" ++ Str.join "," (members ps) ++ "}")
  | VErr _ _ ps => Some ("{" ++ Str.join "," (members ps) ++ "}")
  end.

(** *** JSON.parse, as far as the source looks at it: does it throw?

    A recogniser of the JSON grammar of ECMA-404.  [scan_value] reads one
    value from the front of a string and gives what follows it; the nesting
    of arrays and objects recurses on a fuel, and [OutOfFuel] is kept apart
    from [Reject] so that the fuel given by [parses] can be shown enough. *)

Inductive scan : Type :=
| OutOfFuel
| Reject
| Rest (s : string).

Definition is_ws (c : ascii) : bool :=
  match nat_of_ascii c with
  | 9 | 10 | 13 | 32 => true
  | _ => false
  end.

Definition is_digit (c : ascii) : bool :=
  let n := nat_of_ascii c in Nat.leb 48 n && Nat.leb n 57.

Definition is_hex (c : ascii) : bool :=
  let n := nat_of_ascii c in
  is_digit c || (Nat.leb 65 n && Nat.leb n 70) || (Nat.leb 97 n && Nat.leb n 102).

Fixpoint skip_ws (s : string) : string :=
  match s with
  | "" => ""
  | String c r => if is_ws c then skip_ws r else s
  end.

Fixpoint skip_digits (s : string) : string :=
  match s with
  | "" => ""
  | String c r => if is_digit c then skip_digits r else s
  end.

(** One digit or more. *)
Definition scan_digits (s : string) : option string :=
  match s with
  | "" => None
  | String c r => if is_digit c then Some (skip_digits r) else None
  end.

Definition scan_sign (s : string) : string :=
  match s with
  | String c r => if Ascii.eqb c "-" then r else s
  | "" => s
  end.

Definition scan_int (s : string) : option string :=
  match s with
  | "" => None
  | String c r =>
      if Ascii.eqb c "0" then Some r
      else if is_digit c then Some (skip_digits r)
      else None
  end.

Definition scan_frac (s : string) : option string :=
  match s with
  | String c r => if Ascii.eqb c "." then scan_digits r else Some s
  | "" => Some s
  end.

Definition scan_exp (s : string) : option string :=
  match s with
  | String c r =>
      if Ascii.eqb c "e" || Ascii.eqb c "E" then
        match r with
        | String d q =>
            if Ascii.eqb d "+" || Ascii.eqb d "-" then scan_digits q
            else scan_digits r
        | "" => None
        end
      else Some s
  | "" => Some s
  end.

Definition scan_number (s : string) : option string :=
  match scan_int (scan_sign s) with
  | Some r => match scan_frac r with
              | Some q => scan_exp q
              | None => None
              end
  | None => None
  end.

Definition is_escape (c : ascii) : bool :=
  Ascii.eqb c "034" || Ascii.eqb c "092" || Ascii.eqb c "/" || Ascii.eqb c "b" ||
  Ascii.eqb c "f" || Ascii.eqb c "n" || Ascii.eqb c "r" || Ascii.eqb c "t".

(** The characters of a string literal after its opening quote, up to and
    with the closing one. *)
Fixpoint scan_chars (s : string) : option string :=
  match s with
  | "" => None
  | String c r =>
      if Ascii.eqb c "034" then Some r
      else if Ascii.eqb c "092" then
        match r with
        | String e q =>
            if is_escape e then scan_chars q
            else if Ascii.eqb e "u" then
              match q with
              | String h1 (String h2 (String h3 (String h4 q'))) =>
                  if is_hex h1 && is_hex h2 && is_hex h3 && is_hex h4
                  then scan_chars q' else None
              | _ => None
              end
            else None
        | "" => None
        end
      else if Nat.ltb (nat_of_ascii c) 32 then None
      else scan_chars r
  end.

Definition scan_word (w s : string) : scan :=
  if prefix w s then Rest (Str.drop (length w) s) else Reject.

Definition scan_of (o : option string) : scan :=
  match o with Some r => Rest r | None => Reject end.

Fixpoint scan_value (fuel : nat) (s : string) : scan :=
  match fuel with
  | 0 => OutOfFuel
  | S fuel =>
      match s with
      | "" => Reject
      | String c r =>
          if Ascii.eqb c "{" then
            match skip_ws r with
            | "" => Reject
            | String d q as m =>
                if Ascii.eqb d "}" then Rest q else scan_members fuel m
            end
          else if Ascii.eqb c "[" then
            match skip_ws r with
            | "" => Reject
            | String d q as m =>
                if Ascii.eqb d "]" then Rest q else scan_elements fuel m
            end
          else if Ascii.eqb c "034" then scan_of (scan_chars r)
          else if Ascii.eqb c "t" then scan_word "true" s
          else if Ascii.eqb c "f" then scan_word "false" s
          else if Ascii.eqb c "n" then scan_word "null" s
          else scan_of (scan_number s)
      end
  end

with scan_elements (fuel : nat) (s : string) : scan :=
  match fuel with
  | 0 => OutOfFuel
  | S fuel =>
      match scan_value fuel s with
      | Rest r =>
          match skip_ws r with
          | "" => Reject
          | String d q =>
              if Ascii.eqb d "," then scan_elements fuel (skip_ws q)
              else if Ascii.eqb d "]" then Rest q
              else Reject
          end
      | other => other
      end
  end

with scan_members (fuel : nat) (s : string) : scan :=
  match fuel with
  | 0 => OutOfFuel
  | S fuel =>
      match s with
      | "" => Reject
      | String c r =>
          if Ascii.eqb c "034" then
            match scan_chars r with
            | None => Reject
            | Some r1 =>
                match skip_ws r1 with
                | "" => Reject
                | String d r2 =>
                    if Ascii.eqb d ":" then
                      match scan_value fuel (skip_ws r2) with
                      | Rest r3 =>
                          match skip_ws r3 with
                          | "" => Reject
                          | String e q =>
                              if Ascii.eqb e "," then scan_members fuel (skip_ws q)
                              else if Ascii.eqb e "}" then Rest q
                              else Reject
                          end
                      | other => other
                      end
                    else Reject
                end
            end
          else Reject
      end
  end.

(** What is read has at least one character; a fuel of twice the length of
    the text and [slack] more is not used up. *)
Definition shorter (f : nat -> string -> scan) (fuel : nat) : Prop :=
  forall s r, f fuel s = Rest r -> length r < length s.

Definition fuelled (f : nat -> string -> scan) (slack fuel : nat) : Prop :=
  forall s, 2 * length s + slack <= fuel -> f fuel s <> OutOfFuel.

(** Does [JSON.parse(text)] return rather than throw a [SyntaxError]? *)
Definition parses (text : string) : bool :=
  match scan_value (2 * length text + 1) (skip_ws text) with
  | Rest r => match skip_ws r with "" => true | _ => false end
  | _ => false
  end.

End JS.

(* ===================================================================== *)
(** ** class service                                                     *)
(* ===================================================================== *)

Module Service.
Import JS.

(** *** The state the methods work on *)

(** What [setTimeout] returns.  The [AbortController] of a [fetch] call is
    reached by the callback of that call's timer alone, so the
    controller and its signal are named by the timer's handle. *)
Definition handle : Type := nat.

Record request : Type := {
  url : value;
  signal : handle;
  method : value;
  body : value;
  headers : list (string * string)
}.

Inductive console : Type := ConsoleError | ConsoleDebug | ConsoleLog.

(** Calls made to the runtime, and timers going off, in order. *)
Inductive event : Type :=
| EConsole (stream : console) (args : list value)
| ESetTimeout (h : handle) (ms : N)
| EClearTimeout (h : handle)
| EFired (h : handle)
| ERequest (r : request).

Record world : Type := {
  timers : list handle;            (* this.timers *)
  pending : list (handle * N);     (* event loop: armed timers, ms left *)
  next_handle : handle;            (* the next handle setTimeout gives *)
  trace : list event
}.

Definition M (A : Type) : Type := world -> completion A * world.

Definition ret {A} (a : A) : M A := fun w => (Return a, w).

Definition throw {A} (e : value) : M A := fun w => (Throw e, w).

(** A computation that leaves the world alone. *)
Definition lift {A} (c : completion A) : M A := fun w => (c, w).

Definition bind {A B} (c : M A) (k : A -> M B) : M B :=
  fun w =>
    match c w with
    | (Return a, w') => k a w'
    | (Throw e, w') => (Throw e, w')
    | (Exit code, w') => (Exit code, w')
    end.

(** [try { c } catch (error) { handler(error) }]. *)
Definition try_catch {A} (c : M A) (handler : value -> M A) : M A :=
  fun w =>
    match c w with
    | (Throw e, w') => handler e w'
    | other => other
    end.

Notation "x <- c ;; k" := (bind c (fun x => k))
  (at level 61, c at next level, right associativity).
Notation "c ;; k" := (bind c (fun _ => k))
  (at level 61, right associativity).

(** The runtime calls first as changes of the world, then as actions. *)

Definition traced (e : event) (w : world) : world :=
  {| timers := timers w; pending := pending w;
     next_handle := next_handle w; trace := trace w ++ [e] |}.

Definition emit (e : event) : M unit := fun w => (Return tt, traced e w).

(** The delay [setTimeout] really uses: a delay below 1 ms or above
    2^31-1 ms is replaced by 1 ms. *)
Definition timer_delay (ms : Z) : N :=
  if (1 <=? ms)%Z && (ms <=? 2147483647)%Z then Z.to_N ms else 1%N.

Definition scheduled (ms : Z) (w : world) : world :=
  {| timers := timers w;
     pending := pending w ++ [(next_handle w, timer_delay ms)];
     next_handle := S (next_handle w);
     trace := trace w ++ [ESetTimeout (next_handle w) (timer_delay ms)] |}.

Definition setTimeout (ms : Z) : M handle :=
  fun w => (Return (next_handle w), scheduled ms w).

Definition disarm (h : handle) (l : list (handle * N)) : list (handle * N) :=
  filter (fun p => negb (Nat.eqb (fst p) h)) l.

Definition armed (h : handle) (w : world) : bool :=
  existsb (fun p => Nat.eqb (fst p) h) (pending w).

Definition cleared (h : handle) (w : world) : world :=
  {| timers := timers w; pending := disarm h (pending w);
     next_handle := next_handle w; trace := trace w ++ [EClearTimeout h] |}.

(** [clearTimeout(t)]; [t] is [undefined] when it was read past the end of
    the array, and clearing that, or a timer no longer armed, does nothing. *)
Definition clearTimeout (t : option handle) : M unit :=
  fun w =>
    match t with
    | None => (Return tt, w)
    | Some h => (Return tt, cleared h w)
    end.

Definition pushed (h : handle) (w : world) : world :=
  {| timers := timers w ++ [h]; pending := pending w;
     next_handle := next_handle w; trace := trace w |}.

(** [this.timers.push(h)], which returns the new length. *)
Definition timers_push (h : handle) : M nat :=
  fun w => (Return (List.length (timers (pushed h w))), pushed h w).

(** [this.timers[index]]. *)
Definition timers_at (index : nat) : M (option handle) :=
  fun w => (Return (nth_error (timers w) index), w).

Definition timers_length : M nat :=
  fun w => (Return (List.length (timers w)), w).

(** [d] ms go by: the timers with at most [d] ms left go off, in the order
    they were armed, and the others have that much less left. *)
Definition elapsed (d : N) (w : world) : world :=
  {| timers := timers w;
     pending := map (fun p => (fst p, (snd p - d)%N))
                    (filter (fun p => negb (N.leb (snd p) d)) (pending w));
     next_handle := next_handle w;
     trace := trace w ++ map (fun p => EFired (fst p))
                             (filter (fun p => N.leb (snd p) d) (pending w)) |}.

Definition elapse (d : N) : M unit := fun w => (Return tt, elapsed d w).

Definition time_left (h : handle) (w : world) : option N :=
  match find (fun p => Nat.eqb (fst p) h) (pending w) with
  | Some p => Some (snd p)
  | None => None
  end.

(** *** The collaborators *)

Inductive settled : Type :=
| Resolved (v : value)
| Rejected (e : value).

(** What the transport does with a request when nothing aborts it: after
    [after] ms either the response is there, and reading its body as JSON
    settles [body_after] ms later, or the request has failed. *)
Inductive reply : Type :=
| Responds (after : N) (body_after : N) (json : settled)
| Fails (after : N) (error : value).

Definition reply_after (r : reply) : N :=
  match r with
  | Responds after _ _ => after
  | Fails after _ => after
  end.

Record config : Type := { timeout : Z }.

(** [this.config] when the constructor is given no [timeout]. *)
Definition default_config : config := {| timeout := 30000 |}.

Record process : Type := { pid : Z; date : string }.

(** *** const color *)

Module color.
Definition esc : string := String "027" "".
Definition red : string := esc ++ "[31m".
Definition green : string := esc ++ "[32m".
Definition bright_red : string := esc ++ "[91m".
Definition bright_green : string := esc ++ "[92m".
Definition dim : string := esc ++ "[2m".
Definition reset : string := esc ++ "[0m".
End color.

(** *** this.Timer

    [process.hrtime()] reads a monotonic clock as seconds and nanoseconds;
    the reading is an argument of each method.  [process.hrtime(time)] is
    the reading less [time], the nanoseconds borrowing from the seconds. *)

Module Timer.

Definition hrtime : Type := (Z * Z)%type.

Definition hrtime_since (now time : hrtime) : hrtime :=
  let sec := (fst now - fst time)%Z in
  let nsec := (snd now - snd time)%Z in
  if (nsec <? 0)%Z then ((sec - 1)%Z, (nsec + 1000000000)%Z) else (sec, nsec).

(** The one field of a [Timer]: the closure's [timestamp]. *)
Record t : Type := { timestamp : hrtime }.

Definition constructor (now : hrtime) : t := {| timestamp := now |}.

Definition start (now : hrtime) (_ : t) : t := {| timestamp := now |}.

Definition reset (now : hrtime) (_ : t) : t := {| timestamp := now |}.

(** [timestamp[0] + timestamp[1] / 1000000000], as an exact fraction; the
    code computes it in floating point, so with the rounding of that. *)
Definition seconds (time : hrtime) : Q :=
  (inject_Z (fst time) + Qmake (snd time) 1000000000)%Q.

(** [stop]: the value returned and the timer after the call. *)
Definition stop (now : hrtime) (timer : t) : Q * t :=
  let timestamp := hrtime_since now (timestamp timer) in
  (seconds timestamp, {| timestamp := timestamp |}).

(** A reading is normal when its nanoseconds are below a second, and
    [before a b] when [a] was read no later than [b]. *)
Definition normal (time : hrtime) : Prop :=
  (0 <= snd time < 1000000000)%Z.

Definition before (a b : hrtime) : Prop :=
  (fst a < fst b \/ (fst a = fst b /\ snd a <= snd b))%Z.

End Timer.

(** *** this.UUID

    [uuid] is version 5 of the uuid package, a hash of a name under a
    namespace, and [DNS] its namespace of that name; both are taken as
    they come.  The reading of the clock is an argument. *)


Section UUID.

Variable uuid : string -> string -> string.
Variable DNS : string.


End UUID.

(** *** this.trim, this.untrim *)

Definition trim (message : string) : string :=
  Str.replace_trailing_space (Str.replace_leading_space message).

Definition untrim (message : string) : string :=
  " " ++ trim message ++ " ".

(** *** this.is *)

Module Is.

Definition null (v : value) : bool :=
  match v with VNull => true | _ => false end.

Definition undefined (v : value) : bool :=
  match v with VUndefined => true | _ => false end.

Definition string (v : value) : bool :=
  match v with VStr _ => true | _ => false end.

Definition array (v : value) : bool :=
  match v with VArr _ => true | _ => false end.

(** Truthy, of type object, and [value.constructor === Object]: an object
    reads [Object] off its prototype unless a property [constructor] of
    its own hides it. *)
Definition object (v : value) : bool :=
  match v with VObj props => negb (own "constructor" props) | _ => false end.

Definition boolean (v : value) : bool :=
  match v with VBool _ => true | _ => false end.

Definition error (v : value) : bool :=
  match v with VErr _ _ _ => true | _ => false end.

(** [JSON.parse(value)] converts its argument to a string first; the
    [TypeError] of a conversion that throws is caught like the
    [SyntaxError] of a text that is not JSON. *)
Definition json (v : value) : bool := negb (throws v) && parses (ToString v).

End Is.

(** *** The world at start, and what every method keeps true of it *)

(** [this.timers = []] in a process that has armed no timer yet. *)
Definition initial : world :=
  {| timers := []; pending := []; next_handle := 0; trace := [] |}.

(** Every armed timer was given out by [setTimeout] before. *)
Definition wf (w : world) : bool :=
  forallb (fun p => Nat.ltb (fst p) (next_handle w)) (pending w).

(** The ways through [fetch] once its arguments are accepted. *)
Inductive path : Type := Success | ParseFailure | TransportFailure | Timeout.

Definition path_of (delay : N) (r : reply) : path :=
  if N.leb delay (reply_after r) then Timeout
  else match r with
       | Responds _ _ (Resolved _) => Success
       | Responds _ _ (Rejected _) => ParseFailure
       | Fails _ _ => TransportFailure
       end.

Definition is_transport_failure (p : path) : bool :=
  match p with TransportFailure => true | _ => false end.

(** The error [fetch] throws at an argument it refuses. *)
Definition invalid_parameter (c : completion value) : bool :=
  match c with
  | Throw (VErr name message _) =>
      String.eqb name "Error" && prefix "Invalid parameter: " message
  | _ => false
  end.

Definition absent (h : handle) (l : list (handle * N)) : Prop :=
  existsb (fun p => Nat.eqb (fst p) h) l = false.

(** The request a call of [fetch] sends from the world [w], and the world
    once its timer is armed and the request is out. *)
Definition sent (address method body : value) (w : world) : request :=
  {| url := address; signal := next_handle w; method := method; body := body;
     headers := [("Content-Type", "application/json")] |}.

Definition started (cfg : config) (address method body : value) (w : world) : world :=
  traced (ERequest (sent address method body w))
         (pushed (next_handle w) (scheduled (timeout cfg) w)).

Definition settle (json : settled) : completion value :=
  match json with
  | Resolved data => Return data
  | Rejected error => Throw error
  end.

Section Methods.

Variable cfg : config.
Variable proc : process.

(** The transport, and what it rejects with once its signal is aborted. *)
Variable net : request -> reply.
Variable abort_error : value.

(** *** this.log *)

Definition red (message : string) : string := color.red ++ message ++ color.reset.
Definition green (message : string) : string := color.green ++ message ++ color.reset.
Definition bright_red (message : string) : string :=
  color.bright_red ++ message ++ color.reset.
Definition bright_green (message : string) : string :=
  color.bright_green ++ message ++ color.reset.
Definition dim (message : string) : string := color.dim ++ message ++ color.reset.

(** [message.join(' ')]; when [log] gets there [message] is an array.
    The elements are converted to strings, which may throw. *)
Definition joined (message : value) : M string :=
  match message with
  | VArr items =>
      if existsb throws items then throw cannot_convert
      else ret (array_join " " items)
  | _ => ret ""
  end.

Definition is_type (name : string) (type : value) : bool :=
  match type with
  | VStr s => String.eqb s name
  | _ => false
  end.

Definition log (message type : value) : M unit :=
  let single := negb (Is.object message) && negb (Is.array message) in
  let type := if single && Is.error message then VStr "error" else type in
  let message := if single then VArr [message] else message in
  let date := date proc in
  let ID := dim "[" ++ Str.of_Z (pid proc) ++ dim "]" in
  if is_type "error" type then
    message <- (if negb (Is.object message)
                then text <- joined message ;;
                     ret (VStr (red (Str.replace_Error_prefix text)))
                else ret message) ;;
    emit (EConsole ConsoleError
            [VStr (bright_red date); VStr ID; VStr (bright_red "ERROR");
             message; VStr color.reset])
  else if is_type "debug" type then
    message <- (if negb (Is.object message)
                then text <- joined message ;; ret (VStr (dim text))
                else ret message) ;;
    emit (EConsole ConsoleDebug
            [VStr (bright_green date); VStr ID; message; VStr color.reset])
  else
    message <- (if negb (Is.object message)
                then text <- joined message ;; ret (VStr (green text))
                else ret message) ;;
    emit (EConsole ConsoleLog
            [VStr (bright_green date); VStr ID; message; VStr color.reset]).

(** *** this.fetch *)

(** [await fetch(address, { signal, ... })].  The request goes out.  If the
    timer behind the signal has no more time left than the transport takes,
    the timer goes off first, its callback aborts the controller and the
    transport rejects with its abort error; otherwise the transport's own
    outcome comes, the timer still armed. *)
Definition await_fetch (r : request) : M (N * settled) :=
  emit (ERequest r) ;;
  fun w =>
    let own := match net r with
               | Responds after body_after json =>
                   (elapse after ;; ret (body_after, json))
               | Fails after error => (elapse after ;; throw error)
               end in
    match time_left (signal r) w with
    | Some ms =>
        if N.leb ms (reply_after (net r))
        then (elapse ms ;; throw abort_error) w
        else own w
    | None => own w
    end.

(** [await response.json()]. *)
Definition await_json (response : N * settled) : M value :=
  elapse (fst response) ;;
  match snd response with
  | Resolved data => ret data
  | Rejected error => throw error
  end.

Definition fetch (address method body : value) : M value :=
  if negb (Is.string method)
  then throw (new_Error (VStr "Invalid parameter: expected string")) else
  if negb (Is.json body)
  then throw (new_Error (VStr "Invalid parameter: expected object")) else
  try_catch
    (controller <- setTimeout (timeout cfg) ;;
     length <- timers_push controller ;;
     let timeout := length - 1 in
     response <- await_fetch
                   {| url := address; signal := controller; method := method;
                      body := body;
                      headers := [("Content-Type", "application/json")] |} ;;
     t <- timers_at timeout ;;
     clearTimeout t ;;
     data <- await_json response ;;
     ret data)
    (fun error => throw error).

(** *** this.exit *)

Fixpoint for_each (indices : list nat) (body : nat -> M unit) : M unit :=
  match indices with
  | [] => ret tt
  | index :: rest => body index ;; for_each rest body
  end.

Definition process_exit {A} (code : Z) : M A := fun w => (Exit code, w).

(** The loop's bound [this.timers.length] is read anew at each turn, but the
    body leaves the array as it is, so the indices are those below the
    length at entry. *)
Definition exit (message : value) : M value :=
  message <- (if negb (Is.error message)
              then lift (construct_Error message)
              else ret message) ;;
  log message VUndefined ;;
  length <- timers_length ;;
  for_each (seq 0 length)
           (fun index => t <- timers_at index ;; clearTimeout t) ;;
  process_exit 1.

End Methods.

(** The line [log] prints for an error, and the world once every handle of
    a list has been cleared. *)
Definition error_line (proc : process) (error : value) : event :=
  EConsole ConsoleError
    [VStr (bright_red (date proc));
     VStr (dim "[" ++ Str.of_Z (pid proc) ++ dim "]");
     VStr (bright_red "ERROR");
     VStr (red (Str.replace_Error_prefix (ToString error)));
     VStr color.reset].

Definition drained (handles : list handle) (w : world) : world :=
  fold_left (fun v h => cleared h v) handles w.

End Service.

(* ===================================================================== *)
(** ** class database                                                    *)
(* ===================================================================== *)

Module Database.
Import JS.

Record config : Type := { timeout : Z }.

Definition default_config : config := {| timeout := 120000 |}.

(** The argument of [connection.query]. *)
Record statement : Type := { sql : value; statement_timeout : Z }.

(** A connection is its promisified [query]. *)
Definition connection : Type := statement -> Service.settled.

(** The keys [for (let index in results)] visits: the indices of an array
    or of a string in ascending order, then (or, for an object, only) the
    enumerable properties in their order. *)
Inductive key : Type :=
| Index (i : nat)
| Name (k : string).

Definition for_in (v : value) : list key :=
  match v with
  | VArr items => map Index (seq 0 (List.length items))
  | VStr s => map Index (seq 0 (String.length s))
  | VObj props => map (fun p => Name (fst p)) props
  | VErr _ _ props => map (fun p => Name (fst p)) props
  | _ => []
  end.

Fixpoint property (k : string) (props : list (string * value)) : value :=
  match props with
  | [] => VUndefined
  | (k', x) :: r => if String.eqb k k' then x else property k r
  end.

(** [v[index]]. *)
Definition get (v : value) (index : key) : value :=
  match v, index with
  | VArr items, Index i => nth i items VUndefined
  | VStr s, Index i =>
      match String.get i s with
      | Some c => VStr (String c "")
      | None => VUndefined
      end
  | VObj props, Name k => property k props
  | VErr _ _ props, Name k => property k props
  | _, _ => VUndefined
  end.

(** [string + JSON.stringify(x)]. *)
Definition concat_json (prefix : string) (x : value) : string :=
  prefix ++ match stringify x with
            | Some text => text
            | None => "undefined"
            end.

Section Methods.

Variable cfg : config.

Definition execute (connection : connection) (query : value) : completion value :=
  match connection {| sql := query; statement_timeout := timeout cfg |} with
  | Service.Resolved results =>
      Return (VArr (fold_left (fun array index => (array ++ [get results index])%list)
                              (for_in results) []))
  | Service.Rejected error =>
      Throw (new_Error
               (VStr (concat_json "Unable to execute database query: "
                                  (VObj [("sql", query); ("error", error)]))))
  end.

End Methods.

End Database.

(* ===================================================================== *)
(** ** Collaborators and inputs of the scenarios below                   *)
(* ===================================================================== *)

Module Scenario.
Import JS Service.

(** What the transport rejects with when its signal is aborted. *)
Definition AbortError : value :=
  VErr "AbortError" "The user aborted a request." [("type", VStr "aborted")].

Definition address : value := VStr "http://127.0.0.1:3080/status".

(** A transport that answers after 40 s, one that answers [{}] after
    120 ms, and one that is refused the connection after 50 ms. *)
Definition slow : request -> reply :=
  fun _ => Responds 40000 5 (Resolved (VObj [])).

Definition quick : request -> reply :=
  fun _ => Responds 120 5 (Resolved (VObj [])).

Definition refused : request -> reply :=
  fun _ => Fails 50 (VErr "FetchError" "connect ECONNREFUSED 127.0.0.1:3080"
                          [("type", VStr "system"); ("errno", VStr "ECONNREFUSED");
                           ("code", VStr "ECONNREFUSED")]).

(** A process in which two calls of [fetch] are under way. *)
Definition busy : world :=
  {| timers := [0; 1];
     pending := [(0, 12000%N); (1, 29000%N)];
     next_handle := 2;
     trace := [] |}.

Definition proc : process := {| pid := 4711; date := "2020-02-02T20:20:20.020Z" |}.

(** Connections: one that knows no table, with a plain error and with the
    text alone, and one that answers the single row [{1: 1}]. *)
Definition no_table : Database.connection :=
  fun _ => Rejected (VErr "Error" "table not found" []).

Definition no_table_text : Database.connection :=
  fun _ => Rejected (VStr "table not found").

Definition one_row : Database.connection :=
  fun _ => Resolved (VArr [VObj [("1", VNum 1)]]).

(** The message of the error [execute] throws on [no_table]. *)
Definition no_table_message : string :=
  "Unable to execute database query: {" ++
  Str.dq ++ "sql" ++ Str.dq ++ ":" ++ Str.dq ++ "SELECT * FROM missing" ++ Str.dq ++
  "," ++ Str.dq ++ "error" ++ Str.dq ++ ":{}}".


(** The result of an INSERT: no rows, but the packet of the driver with
    its fields, and a connection that answers it. *)
Definition packet : value :=
  VObj [("fieldCount", VNum 0); ("affectedRows", VNum 1); ("insertId", VNum 42);
        ("serverStatus", VNum 2); ("warningCount", VNum 0); ("message", VStr "");
        ("protocol41", VBool true); ("changedRows", VNum 0)].

Definition inserted : Database.connection := fun _ => Resolved packet.

(** Readings of the clock: a timer made at [t0] and stopped three times. *)
Definition t0 : Timer.hrtime := (100, 250000000)%Z.
Definition t1 : Timer.hrtime := (105, 750000000)%Z.
Definition t2 : Timer.hrtime := (106, 750000000)%Z.
Definition t3 : Timer.hrtime := (107, 750000000)%Z.

End Scenario.

(* ===================================================================== *)
(** ** const validate                                                    *)
(* ===================================================================== *)

Module Validate.
Import JS.

(** [typeof v], and whether [v] counts as true in a condition. *)
Definition typeof (v : value) : string :=
  match v with
  | VUndefined => "undefined"
  | VBool _ => "boolean"
  | VNum _ => "number"
  | VStr _ => "string"
  | VNull | VArr _ | VObj _ | VErr _ _ _ => "object"
  end.

Definition truthy (v : value) : bool :=
  match v with
  | VUndefined | VNull => false
  | VBool b => b
  | VNum z => negb (Z.eqb z 0)
  | VStr s => negb (Str.is_empty s)
  | VArr _ | VObj _ | VErr _ _ _ => true
  end.

(** The name of the property that holds the element [i] of an array. *)
Definition index_key (i : nat) : string := Str.of_Z (Z.of_nat i).

(** [Object.keys(v)] for an array, an object or an error: the indices of
    the array in ascending order, the enumerable properties in theirs. *)
Definition keys (v : value) : list string :=
  match v with
  | VArr items => map index_key (seq 0 (List.length items))
  | VObj props => map fst props
  | VErr _ _ props => map fst props
  | _ => []
  end.

(** The index a property name stands for in an array of [n] elements. *)
Definition index_of_key (k : string) (n : nat) : option nat :=
  find (fun i => String.eqb (index_key i) k) (seq 0 n).

(** [v[k]] where [v] is not [null] or [undefined] (there it throws).  An
    array has its elements and its [length], an error its [message] and
    [name] besides the properties added to it; a property that is not there
    reads [undefined].  What only the prototype of [v] defines (methods
    such as [toString], and the prototype itself under [__proto__]) and
    the [stack] of an error are not values of this model and left out:
    the lookup is that of the code for the other names. *)
Definition lookup (v : value) (k : string) : value :=
  match v with
  | VArr items =>
      if String.eqb k "length" then VNum (Z.of_nat (List.length items))
      else match index_of_key k (List.length items) with
           | Some i => nth i items VUndefined
           | None => VUndefined
           end
  | VObj props => Database.property k props
  | VErr name message props =>
      if existsb (String.eqb k) (map fst props) then Database.property k props
      else if String.eqb k "message" then VStr message
      else if String.eqb k "name" then VStr name
      else VUndefined
  | _ => VUndefined
  end.

(** [v.k], which throws a [TypeError] ([None]) on [null] and [undefined]. *)
Definition member (v : value) (k : string) : option value :=
  match v with
  | VUndefined | VNull => None
  | _ => Some (lookup v k)
  end.

(** [Array.prototype.every], which stops at the first element refused;
    [None] is a callback that ran out of fuel. *)
Fixpoint every (f : string -> option bool) (l : list string) : option bool :=
  match l with
  | [] => Some true
  | k :: r =>
      match f k with
      | Some true => every f r
      | other => other
      end
  end.

(** The nesting of a value, which bounds the recursion of [check]. *)
Fixpoint depth (v : value) : nat :=
  match v with
  | VArr items => S (list_max (map depth items))
  | VObj props => S (list_max (map (fun p => depth (snd p)) props))
  | VErr _ _ props => S (list_max (map (fun p => depth (snd p)) props))
  | _ => 0
  end.

(** The inner [check] of [validate]; it recurses into [pattern[key]], so on
    a fuel, which [validate] sets above the depth of the pattern. *)
Fixpoint check (fuel : nat) (value pattern : value) : option bool :=
  match fuel with
  | 0 => None
  | S fuel =>
      if truthy pattern && truthy value &&
         String.eqb (typeof pattern) "object" && String.eqb (typeof value) "object"
      then
        if Nat.leb (List.length (keys pattern)) (List.length (keys value))
        then every (fun key => check fuel (lookup value key) (lookup pattern key))
                   (keys pattern)
        else Some false
      else Some (String.eqb (typeof pattern) (typeof value))
  end.

Definition mismatch : value := new_Error (VStr "Value does not match pattern").

Definition validate (value pattern : value) : completion JS.value :=
  match check (S (depth pattern)) value pattern with
  | Some true => Return (VBool true)
  | _ => Throw mismatch
  end.

(** What [validate] does with the answer of [check]. *)
Definition verdict (b : bool) : completion value :=
  if b then Return (VBool true) else Throw mismatch.

(** A value that [check] goes into: an array, an object or an error. *)
Definition container (v : value) : bool :=
  match v with
  | VArr _ | VObj _ | VErr _ _ _ => true
  | _ => false
  end.

End Validate.

(* ===================================================================== *)
(** ** class server: the handlers given to the API validator             *)
(* ===================================================================== *)

Module Server.
Import JS.

(** [s.toLowerCase()] on code units below 256: the letters A to Z and the
    capital letters of Latin-1 (all of U+00C0 to U+00DE but the
    multiplication sign) move 32 up. *)
Definition lower_char (c : ascii) : ascii :=
  let n := nat_of_ascii c in
  if (Nat.leb 65 n && Nat.leb n 90) ||
     (Nat.leb 192 n && Nat.leb n 222 && negb (Nat.eqb n 215))
  then ascii_of_nat (n + 32) else c.

Fixpoint toLowerCase (s : string) : string :=
  match s with
  | "" => ""
  | String c r => String (lower_char c) (toLowerCase r)
  end.

(** A user of [config.api.domains]: the key is a string, or [None] when it
    is [null], [undefined] or not there; [active] is any value. *)
Record user : Type := { key : option string; active : value }.

Record namespace : Type := { users : list user }.

(** The request as the handler reads it: [request.headers], if any, with
    the header names in lower case as the HTTP parser leaves them. *)
Record request : Type := { headers : option (list (string * string)) }.

Record schema : Type := { name : string }.

(** [request.headers[name]] for a name that [Object.prototype] does not
    define: the string of the header, or [undefined].  (Under a name such
    as [constructor] the headers, a plain object, read the prototype's
    member, which is no string.) *)
Fixpoint header (name : string) (hs : list (string * string)) : option string :=
  match hs with
  | [] => None
  | (n, v) :: r => if String.eqb n name then Some v else header name r
  end.

(** [a == b] between keys: [null] and [undefined] equal each other and
    nothing else, two strings are equal when they are the same. *)
Definition loose_eq (a b : option string) : bool :=
  match a, b with
  | None, None => true
  | Some x, Some y => String.eqb x y
  | _, _ => false
  end.

(** [throw { status: 403, message: 'Forbidden' }]. *)
Definition forbidden : value :=
  VObj [("status", VNum 403); ("message", VStr "Forbidden")].

(** The inner and the outer [for ... of], left by [return true]. *)
Fixpoint some_user (k : option string) (us : list user) : bool :=
  match us with
  | [] => false
  | u :: r =>
      if loose_eq (key u) k && Validate.truthy (active u) then true
      else some_user k r
  end.

Fixpoint some_domain (k : option string) (domains : list namespace) : bool :=
  match domains with
  | [] => false
  | d :: r => if some_user k (users d) then true else some_domain k r
  end.

(** [securityHandlers.apiKey]; the scopes are not looked at. *)
Definition apiKey (domains : list namespace) (request : request)
           (schema : schema) : completion value :=
  match headers request with
  | Some hs =>
      let k := header (toLowerCase (name schema)) hs in
      if some_domain k domains then Return (VBool true) else Throw forbidden
  | None => Throw forbidden
  end.

(** What [errorMiddleware] does: it sets the status of the response and
    sends the result, or throws a [TypeError] before either. *)
Inductive reaction : Type :=
| Responded (status : value) (result : value)
| TypeError.

(** [error && error.k]: [error] itself when it counts as false. *)
Definition guarded (error : value) (k : string) : value :=
  if Validate.truthy error then Validate.lookup error k else error.

Definition errorMiddleware (error : value) : reaction :=
  let status := VNum 400 in
  let message := Some (VStr "Bad Request") in
  let message :=
    match guarded error "errors" with
    | VArr items => Validate.member (nth 0 items VUndefined) "message"
    | _ => message
    end in
  let status :=
    if Validate.truthy (guarded error "status")
    then Validate.lookup error "status" else status in
  match message with
  | Some message =>
      Responded status (VObj [("code", status); ("message", message)])
  | None => TypeError
  end.

End Server.

(* ===================================================================== *)
(** ** Notions the further properties are stated with                    *)
(* ===================================================================== *)

Module Notions.
Import JS Service.

(** A string of white space only. *)
Fixpoint all_space (s : string) : bool :=
  match s with
  | "" => true
  | String c r => Str.is_space c && all_space r
  end.

(** An event in which no timer is armed and no request sent. *)
Definition quiet (e : event) : bool :=
  match e with
  | EFired _ | EClearTimeout _ => true
  | _ => false
  end.

(** Every armed timer has its handle in [timers]. *)
Definition tracked (w : world) : bool :=
  forallb (fun p => existsb (Nat.eqb (fst p)) (timers w)) (pending w).

(** How long a call of [fetch] takes, its timer being due after [delay]. *)
Definition duration (delay : N) (r : reply) : N :=
  if N.leb delay (reply_after r) then delay
  else match r with
       | Responds after body_after _ => (after + body_after)%N
       | Fails after _ => after
       end.

(** What may follow a value inside a JSON text: nothing, or a comma or a
    closing bracket. *)
Definition delimited (rest : string) : bool :=
  match rest with
  | "" => true
  | String c _ => Ascii.eqb c "," || Ascii.eqb c "]" || Ascii.eqb c "}"
  end.

(** A text that opens as a value does: not with white space, not with a
    closing bracket. *)
Definition opens_value (text : string) : bool :=
  match text with
  | "" => false
  | String c _ => negb (is_ws c) && negb (Ascii.eqb c "]") && negb (Ascii.eqb c "}")
  end.

(** A text that the recogniser reads as one value, whatever follows, with
    any fuel from [n] on. *)
Definition accepted (n : nat) (text : string) : Prop :=
  opens_value text = true /\
  forall fuel rest, n <= fuel -> delimited rest = true ->
    scan_value fuel (text ++ rest) = Rest rest.

(** The members [JSON.stringify] prints for the properties of an object,
    and the elements it prints for an array. *)
Fixpoint members_of (props : list (string * value)) : list string :=
  match props with
  | [] => []
  | (k, x) :: r =>
      match stringify x with
      | Some t => (quote k ++ ":" ++ t) :: members_of r
      | None => members_of r
      end
  end.

(** A member whose value is accepted. *)
Definition accepted_member (n : nat) (m : string) : Prop :=
  exists k t, m = quote k ++ ":" ++ t /\ accepted n t.

Definition element_of (x : value) : string :=
  match stringify x with
  | Some t => t
  | None => "null"
  end.

(** More fuel does not change what the recogniser has decided. *)
Definition settled_at (f : nat -> string -> scan) (fuel : nat) : Prop :=
  forall s, f fuel s <> OutOfFuel -> f (S fuel) s = f fuel s.

(** The users of all the domains, in the order the loops visit them. *)
Definition all_users (domains : list Server.namespace) : list Server.user :=
  flat_map Server.users domains.

Definition no_key (u : Server.user) : bool :=
  match Server.key u with None => true | Some _ => false end.

(** The names [Object.prototype] defines.  An object without a property of
    such a name of its own reads the prototype's member there, a method
    or, for [__proto__], the prototype itself, and not [undefined]. *)
Definition object_prototype : list string :=
  ["constructor"; "__defineGetter__"; "__defineSetter__"; "hasOwnProperty";
   "__lookupGetter__"; "__lookupSetter__"; "isPrototypeOf";
   "propertyIsEnumerable"; "toString"; "valueOf"; "__proto__";
   "toLocaleString"].

Definition inherited (k : string) : bool :=
  existsb (String.eqb k) object_prototype.

(** The values whose conversion to a string is the one [ToString] gives:
    no conversion throws on the way, a number is an integer of the safe
    range, which prints with all its digits, and no enumerable property of
    an error stands for its [name] or its [message]. *)
Fixpoint plain (v : value) : bool :=
  match v with
  | VNum z => (Z.abs z <=? 9007199254740991)%Z
  | VArr items => forallb plain items
  | VObj props => negb (own "toString" props)
  | VErr _ _ props =>
      negb (own "toString" props) && negb (own "name" props) &&
      negb (own "message" props)
  | _ => true
  end.

(** The error [exit] logs: the message itself if it is one. *)
Definition coerced (message : value) : value :=
  if Is.error message then message else new_Error message.



End Notions.

(* ===================================================================== *)
(** ** JSON.parse: the fuel of the recogniser is enough                  *)
(* ===================================================================== *)

Module JsonSpec.
Import JS.

Lemma skip_ws_length (s : string) : length (skip_ws s) <= length s.
Proof.
  induction s as [|c r IH]; simpl; [lia|].
  destruct (is_ws c); simpl; lia.
Qed.

Lemma skip_digits_length (s : string) : length (skip_digits s) <= length s.
Proof.
  induction s as [|c r IH]; simpl; [lia|].
  destruct (is_digit c); simpl; lia.
Qed.

Lemma drop_length (n : nat) (s : string) : length (Str.drop n s) = length s - n.
Proof.
  revert s. induction n as [|n IH]; intros [|c r]; simpl; try lia.
  apply IH.
Qed.

Lemma prefix_length (w s : string) : prefix w s = true -> length w <= length s.
Proof.
  revert s. induction w as [|c w IH]; intros [|d s]; simpl; try lia; try discriminate.
  destruct (ascii_dec c d); [|discriminate].
  intros H. apply IH in H. lia.
Qed.

Lemma scan_digits_length (s r : string) :
  scan_digits s = Some r -> length r < length s.
Proof.
  destruct s as [|c q]; simpl; [discriminate|].
  destruct (is_digit c); [|discriminate].
  intros [= <-]. pose proof (skip_digits_length q). lia.
Qed.

Lemma scan_number_length (s r : string) :
  scan_number s = Some r -> length r < length s.
Proof.
  unfold scan_number.
  destruct (scan_int (scan_sign s)) as [a|] eqn:Ei; [|discriminate].
  destruct (scan_frac a) as [b|] eqn:Ef; [|discriminate].
  intros Ee.
  assert (length (scan_sign s) <= length s) as Hs.
  { destruct s as [|c q]; simpl; [lia|]. destruct (Ascii.eqb c "-"); simpl; lia. }
  assert (length a < length (scan_sign s)) as Ha.
  { destruct (scan_sign s) as [|c q]; simpl in *; [discriminate|].
    destruct (Ascii.eqb c "0"); [injection Ei as <-; lia|].
    destruct (is_digit c); [|discriminate].
    injection Ei as <-. pose proof (skip_digits_length q). lia. }
  assert (length b <= length a) as Hb.
  { destruct a as [|c q]; simpl in Ef; [injection Ef as <-; lia|].
    destruct (Ascii.eqb c "."); [|injection Ef as <-; lia].
    apply scan_digits_length in Ef. simpl. lia. }
  assert (length r <= length b) as Hr.
  { destruct b as [|c q]; simpl in Ee; [injection Ee as <-; lia|].
    destruct (Ascii.eqb c "e" || Ascii.eqb c "E"); [|injection Ee as <-; lia].
    destruct q as [|d q']; [discriminate|].
    destruct (Ascii.eqb d "+" || Ascii.eqb d "-");
      apply scan_digits_length in Ee; simpl in *; lia. }
  lia.
Qed.

Lemma scan_chars_length (s r : string) :
  scan_chars s = Some r -> length r < length s.
Proof.
  remember (length s) as n eqn:En.
  revert s r En. induction n as [n IH] using lt_wf_ind.
  intros [|c q] r -> H; simpl in H; [discriminate|].
  destruct (Ascii.eqb c "034"); [injection H as <-; simpl; lia|].
  destruct (Ascii.eqb c "092").
  - destruct q as [|e q1]; [discriminate|].
    destruct (is_escape e).
    + apply (IH (length q1)) in H; simpl in *; try lia; reflexivity.
    + destruct (Ascii.eqb e "u"); [|discriminate].
      destruct q1 as [|h1 [|h2 [|h3 [|h4 q2]]]]; try discriminate.
      destruct (is_hex h1 && is_hex h2 && is_hex h3 && is_hex h4); [|discriminate].
      apply (IH (length q2)) in H; simpl in *; try lia; reflexivity.
  - destruct (Nat.ltb (nat_of_ascii c) 32); [discriminate|].
    apply (IH (length q)) in H; simpl in *; try lia; reflexivity.
Qed.

Lemma scan_word_length (w s r : string) :
  w <> "" -> scan_word w s = Rest r -> length r < length s.
Proof.
  unfold scan_word. intros Hw.
  destruct (prefix w s) eqn:E; [|discriminate].
  intros [= <-]. rewrite drop_length. apply prefix_length in E.
  destruct w; [congruence|]. simpl in *. lia.
Qed.

Lemma scan_of_length (o : option string) (s r : string) :
  (forall q, o = Some q -> length q < length s) ->
  scan_of o = Rest r -> length r < length s.
Proof. destruct o; simpl; intros H [= <-]. now apply H. Qed.

(** Facts on lengths from the hypotheses at hand. *)
Ltac lengths :=
  repeat match goal with
  | H : skip_ws ?x = String _ _ |- _ =>
      let L := fresh "L" in
      pose proof (skip_ws_length x) as L; rewrite H in L; clear H
  | H : scan_chars ?x = Some _ |- _ => apply scan_chars_length in H
  end;
  simpl length in *.

(** Whatever is read is at least one character long. *)
Lemma scan_shorter (fuel : nat) :
  shorter scan_value fuel /\ shorter scan_elements fuel /\ shorter scan_members fuel.
Proof.
  induction fuel as [|fuel (IHv & IHe & IHm)]; unfold shorter in *.
  { repeat split; intros s r H; discriminate H. }
  repeat split; intros s r H.
  - cbn [scan_value] in H.
    destruct s as [|c q]; [discriminate|].
    destruct (Ascii.eqb c "{").
    { destruct (skip_ws q) as [|d q'] eqn:E; [discriminate|].
      destruct (Ascii.eqb d "}").
      - injection H as <-. lengths. lia.
      - apply IHm in H. lengths. lia. }
    destruct (Ascii.eqb c "[").
    { destruct (skip_ws q) as [|d q'] eqn:E; [discriminate|].
      destruct (Ascii.eqb d "]").
      - injection H as <-. lengths. lia.
      - apply IHe in H. lengths. lia. }
    destruct (Ascii.eqb c "034").
    { apply scan_of_length with (s := String c q) in H; [exact H|].
      intros x Hx. lengths. lia. }
    destruct (Ascii.eqb c "t"); [now apply scan_word_length in H|].
    destruct (Ascii.eqb c "f"); [now apply scan_word_length in H|].
    destruct (Ascii.eqb c "n"); [now apply scan_word_length in H|].
    apply scan_of_length with (s := String c q) in H; [exact H|].
    intros x Hx. now apply scan_number_length in Hx.
  - cbn [scan_elements] in H.
    destruct (scan_value fuel s) as [| |r1] eqn:Ev; try discriminate.
    apply IHv in Ev.
    destruct (skip_ws r1) as [|d q] eqn:E; [discriminate|].
    destruct (Ascii.eqb d ",").
    { apply IHe in H. pose proof (skip_ws_length q). lengths. lia. }
    destruct (Ascii.eqb d "]"); [|discriminate].
    injection H as <-. lengths. lia.
  - cbn [scan_members] in H.
    destruct s as [|c q]; [discriminate|].
    destruct (Ascii.eqb c "034"); [|discriminate].
    destruct (scan_chars q) as [r1|] eqn:Ec; [|discriminate].
    destruct (skip_ws r1) as [|d r2] eqn:E1; [discriminate|].
    destruct (Ascii.eqb d ":"); [|discriminate].
    destruct (scan_value fuel (skip_ws r2)) as [| |r3] eqn:Ev; try discriminate.
    apply IHv in Ev. pose proof (skip_ws_length r2).
    destruct (skip_ws r3) as [|e q'] eqn:E3; [discriminate|].
    destruct (Ascii.eqb e ",").
    { apply IHm in H. pose proof (skip_ws_length q'). lengths. lia. }
    destruct (Ascii.eqb e "}"); [|discriminate].
    injection H as <-. lengths. lia.
Qed.

(** A fuel of twice the length and one is never used up. *)
Lemma scan_fuelled (fuel : nat) :
  fuelled scan_value 1 fuel /\ fuelled scan_elements 2 fuel /\
  fuelled scan_members 2 fuel.
Proof.
  induction fuel as [|fuel (IHv & IHe & IHm)]; unfold fuelled in *.
  { repeat split; intros s H; lia. }
  destruct (scan_shorter fuel) as (Sv & Se & Sm). unfold shorter in *.
  repeat split; intros s Hf.
  - cbn [scan_value].
    destruct s as [|c q]; [discriminate|]. simpl length in Hf.
    destruct (Ascii.eqb c "{").
    { destruct (skip_ws q) as [|d q'] eqn:E; [discriminate|].
      destruct (Ascii.eqb d "}"); [discriminate|].
      apply IHm. lengths. lia. }
    destruct (Ascii.eqb c "[").
    { destruct (skip_ws q) as [|d q'] eqn:E; [discriminate|].
      destruct (Ascii.eqb d "]"); [discriminate|].
      apply IHe. lengths. lia. }
    destruct (Ascii.eqb c "034"); [now destruct (scan_chars q)|].
    unfold scan_word.
    destruct (Ascii.eqb c "t"); [now destruct (prefix _ _)|].
    destruct (Ascii.eqb c "f"); [now destruct (prefix _ _)|].
    destruct (Ascii.eqb c "n"); [now destruct (prefix _ _)|].
    now destruct (scan_number _).
  - cbn [scan_elements].
    destruct (scan_value fuel s) as [| |r1] eqn:Ev; try discriminate.
    { exfalso. revert Ev. apply IHv. lia. }
    apply Sv in Ev.
    destruct (skip_ws r1) as [|d q] eqn:E; [discriminate|].
    destruct (Ascii.eqb d ",").
    { apply IHe. pose proof (skip_ws_length q). lengths. lia. }
    now destruct (Ascii.eqb d "]").
  - cbn [scan_members].
    destruct s as [|c q]; [discriminate|]. simpl length in Hf.
    destruct (Ascii.eqb c "034"); [|discriminate].
    destruct (scan_chars q) as [r1|] eqn:Ec; [|discriminate].
    destruct (skip_ws r1) as [|d r2] eqn:E1; [discriminate|].
    destruct (Ascii.eqb d ":"); [|discriminate].
    pose proof (skip_ws_length r2).
    destruct (scan_value fuel (skip_ws r2)) as [| |r3] eqn:Ev; try discriminate.
    { exfalso. revert Ev. apply IHv. lengths. lia. }
    apply Sv in Ev.
    destruct (skip_ws r3) as [|e q'] eqn:E3; [discriminate|].
    destruct (Ascii.eqb e ",").
    { apply IHm. pose proof (skip_ws_length q'). lengths. lia. }
    now destruct (Ascii.eqb e "}").
Qed.

(** The recogniser decides every text: the fuel [parses] gives is enough. *)
Lemma parses_fuel (text : string) :
  scan_value (2 * length text + 1) (skip_ws text) <> OutOfFuel.
Proof.
  apply (scan_fuelled (2 * length text + 1)).
  pose proof (skip_ws_length text). lia.
Qed.

End JsonSpec.

(* ===================================================================== *)
(** ** trim and untrim                                                   *)
(* ===================================================================== *)

Module TrimSpec.
Import Str Service.

Lemma headed_leading (s : string) : headed (replace_leading_space s) = true.
Proof.
  induction s as [|c r IH]; simpl; [reflexivity|].
  destruct (is_space c) eqn:E; [exact IH|].
  simpl. now rewrite E.
Qed.

Lemma leading_headed (s : string) :
  headed s = true -> replace_leading_space s = s.
Proof.
  destruct s as [|c r]; simpl; [reflexivity|].
  now destruct (is_space c).
Qed.

Lemma trailing_cons (c : ascii) (r : string) :
  is_space c = false ->
  replace_trailing_space (String c r) = String c (replace_trailing_space r).
Proof.
  intros E. simpl. rewrite E. now destruct (replace_trailing_space r).
Qed.

Lemma headed_trailing (s : string) :
  headed s = true -> headed (replace_trailing_space s) = true.
Proof.
  destruct s as [|c r]; [reflexivity|].
  cbn [headed]. intros H. apply negb_true_iff in H.
  rewrite (trailing_cons _ _ H). cbn [headed]. now rewrite H.
Qed.

Lemma trailing_idem (s : string) :
  replace_trailing_space (replace_trailing_space s) = replace_trailing_space s.
Proof.
  induction s as [|c r IH]; [reflexivity|].
  cbn [replace_trailing_space].
  destruct (replace_trailing_space r) as [|d r'] eqn:E.
  - destruct (is_space c) eqn:Ec; [reflexivity|].
    simpl. now rewrite Ec.
  - cbn [replace_trailing_space] in *. now rewrite IH.
Qed.

Lemma trailing_snoc (s : string) (c : ascii) :
  is_space c = true ->
  replace_trailing_space (s ++ String c "") = replace_trailing_space s.
Proof.
  intros Ec. induction s as [|d r IH]; simpl.
  - now rewrite Ec.
  - now rewrite IH.
Qed.

Lemma headed_trim (s : string) : headed (trim s) = true.
Proof. apply headed_trailing, headed_leading. Qed.

Lemma trim_idem (s : string) : trim (trim s) = trim s.
Proof.
  unfold trim at 1. rewrite (leading_headed _ (headed_trim s)).
  apply trailing_idem.
Qed.

Lemma trim_untrim (s : string) : trim (untrim s) = trim s.
Proof.
  unfold untrim, trim at 1.
  change (replace_leading_space (" " ++ trim s ++ " "))
    with (replace_leading_space (trim s ++ " ")).
  pose proof (headed_trim s) as H.
  destruct (trim s) as [|c r] eqn:E; [reflexivity|].
  rewrite leading_headed by exact H.
  rewrite trailing_snoc by reflexivity.
  rewrite <- E. unfold trim. apply trailing_idem.
Qed.

Lemma untrim_idem (s : string) : untrim (untrim s) = untrim s.
Proof. unfold untrim at 1. rewrite trim_untrim. reflexivity. Qed.

Lemma list_of_append (a b : string) :
  list_ascii_of_string (a ++ b) =
  (list_ascii_of_string a ++ list_ascii_of_string b)%list.
Proof. induction a as [|c r IH]; simpl; [reflexivity|now rewrite IH]. Qed.

Lemma space_of_blank (c : ascii) : Ascii.eqb c " " = true -> is_space c = true.
Proof. intros H. apply Ascii.eqb_eq in H. now subst. Qed.

Lemma tailed_cons (c d : ascii) (r : string) :
  tailed (String c (String d r)) = tailed (String d r).
Proof.
  unfold tailed. cbn [list_ascii_of_string rev].
  destruct (rev (list_ascii_of_string r) ++ [d])%list eqn:E; [|reflexivity].
  now destruct (rev (list_ascii_of_string r)).
Qed.

Lemma tailed_trailing (s : string) : tailed (replace_trailing_space s) = true.
Proof.
  induction s as [|c r IH]; [reflexivity|].
  cbn [replace_trailing_space].
  destruct (replace_trailing_space r) as [|d r'].
  - destruct (is_space c) eqn:E; [reflexivity|].
    unfold tailed. simpl. now rewrite E.
  - now rewrite tailed_cons.
Qed.

Lemma tailed_trim (s : string) : tailed (trim s) = true.
Proof. apply tailed_trailing. Qed.

Lemma begins_untrim (s : string) :
  begins_with_blanks (untrim s) = if is_empty (trim s) then 2 else 1.
Proof.
  unfold untrim, begins_with_blanks.
  pose proof (headed_trim s) as H.
  destruct (trim s) as [|c r]; [reflexivity|].
  cbn [headed] in H. cbn.
  destruct (Ascii.eqb c " ") eqn:E; [|reflexivity].
  apply space_of_blank in E. now rewrite E in H.
Qed.

Lemma ends_untrim (s : string) :
  ends_with_blanks (untrim s) = if is_empty (trim s) then 2 else 1.
Proof.
  unfold untrim, ends_with_blanks.
  pose proof (tailed_trim s) as H. unfold tailed in H.
  change (" " ++ trim s ++ " ") with (String " " (trim s ++ " ")).
  cbn [list_ascii_of_string rev].
  rewrite list_of_append, rev_app_distr. cbn [list_ascii_of_string rev app].
  destruct (trim s) as [|c r] eqn:Et; [reflexivity|].
  cbn [is_empty].
  destruct (rev (list_ascii_of_string (String c r))) as [|d l] eqn:E.
  - cbn in E. now destruct (rev (list_ascii_of_string r)).
  - cbn. destruct (Ascii.eqb d " ") eqn:Ed; [|reflexivity].
    apply space_of_blank in Ed. now rewrite Ed in H.
Qed.

(** C10, as the code has it: for every string [s], [trim(untrim(s))] is
    [trim(s)] and [untrim(untrim(s))] is [untrim(s)]; [untrim(s)] opens
    with exactly one space and closes with exactly one space when
    [trim(s)] is not empty, and is the two spaces alone when it is. *)
Theorem untrim_trim_laws (s : string) :
  trim (untrim s) = trim s /\
  untrim (untrim s) = untrim s /\
  begins_with_blanks (untrim s) = (if is_empty (trim s) then 2 else 1) /\
  ends_with_blanks (untrim s) = (if is_empty (trim s) then 2 else 1) /\
  (if is_empty (trim s) then untrim s = "  " else True).
Proof.
  repeat split.
  - apply trim_untrim.
  - apply untrim_idem.
  - apply begins_untrim.
  - apply ends_untrim.
  - unfold untrim. now destruct (trim s).
Qed.

(** C10 as the claim has it fails on the empty string: [untrim("")] is two
    spaces, so it opens with two spaces, and closes with two. *)
Lemma untrim_empty_two_blanks :
  untrim "" = "  " /\
  ~ (trim (untrim "") = trim "" /\
     untrim (untrim "") = untrim "" /\
     begins_with_blanks (untrim "") = 1 /\
     ends_with_blanks (untrim "") = 1).
Proof.
  split; [reflexivity|].
  intros (_ & _ & H & _). discriminate H.
Qed.

End TrimSpec.

(* ===================================================================== *)
(** ** fetch and the timers it arms                                      *)
(* ===================================================================== *)

Module FetchSpec.
Import JS Service.
Local Open Scope list_scope.

Lemma absent_filter (h : handle) (f : handle * N -> bool) (l : list (handle * N)) :
  absent h l -> absent h (filter f l).
Proof.
  unfold absent. induction l as [|[a b] l IH]; simpl; [reflexivity|].
  intros H. apply orb_false_iff in H as [Hp Hl].
  destruct (f (a, b)); simpl; [rewrite Hp|]; auto.
Qed.

Lemma absent_map (h : handle) (g : N -> N) (l : list (handle * N)) :
  absent h l -> absent h (map (fun p => (fst p, g (snd p))) l).
Proof.
  unfold absent. induction l as [|[a b] l IH]; simpl; [reflexivity|].
  intros H. apply orb_false_iff in H as [Hp Hl]. rewrite Hp. auto.
Qed.

Lemma absent_disarm (h : handle) (l : list (handle * N)) : absent h (disarm h l).
Proof.
  unfold absent, disarm. induction l as [|[a b] l IH]; simpl; [reflexivity|].
  destruct (Nat.eqb a h) eqn:E; simpl; [exact IH|].
  rewrite E. exact IH.
Qed.

Lemma absent_fresh (h : handle) (l : list (handle * N)) :
  forallb (fun p => Nat.ltb (fst p) h) l = true -> absent h l.
Proof.
  unfold absent. induction l as [|[a b] l IH]; simpl; [reflexivity|].
  intros H. apply andb_true_iff in H as [Hp Hl].
  apply Nat.ltb_lt in Hp.
  destruct (Nat.eqb_spec a h); [lia|]. auto.
Qed.

Lemma absent_app (h : handle) (l l' : list (handle * N)) :
  absent h l -> absent h l' -> absent h (l ++ l').
Proof.
  unfold absent. intros H H'. rewrite existsb_app.
  apply orb_false_iff. now split.
Qed.

Lemma find_fresh (h : handle) (d : N) (l : list (handle * N)) :
  absent h l ->
  find (fun p => Nat.eqb (fst p) h) (l ++ [(h, d)]) = Some (h, d).
Proof.
  unfold absent. induction l as [|[a b] l IH]; simpl.
  - now rewrite Nat.eqb_refl.
  - intros H. apply orb_false_iff in H as [Hp Hl]. rewrite Hp. auto.
Qed.

Lemma last_pushed (l : list handle) (h : handle) :
  nth_error (l ++ [h]) (S (List.length l) - 1) = Some h.
Proof.
  replace (S (List.length l) - 1) with (List.length l) by lia.
  rewrite nth_error_app2 by lia. now rewrite Nat.sub_diag.
Qed.

Section Fetch.

Variable cfg : config.
Variable net : request -> reply.
Variable abort_error : value.
Variables address method' body' : value.
Variable w : world.

Local Abbreviation mine := (next_handle w).
Local Abbreviation delay := (timer_delay (timeout cfg)).
Local Abbreviation request' := (sent address method' body' w).
Local Abbreviation w1 := (started cfg address method' body' w).
Local Abbreviation result := (fetch cfg net abort_error address method' body' w).

Hypothesis method_ok : Is.string method' = true.
Hypothesis body_ok : Is.json body' = true.
Hypothesis w_ok : wf w = true.

(** The call, one way through it at a time. *)
Lemma fetch_eq :
  result =
  if N.leb delay (reply_after (net request'))
  then (Throw abort_error, elapsed delay w1)
  else match net request' with
       | Responds after body_after json =>
           (settle json, elapsed body_after (cleared mine (elapsed after w1)))
       | Fails after error => (Throw error, elapsed after w1)
       end.
Proof.
  unfold fetch. rewrite method_ok, body_ok. cbn [negb].
  cbv beta iota zeta delta [try_catch bind setTimeout timers_push await_fetch
    emit timers_at await_json elapse ret throw time_left].
  fold (sent address method' body' w).
  change (traced (ERequest request') (pushed mine (scheduled (timeout cfg) w)))
    with w1.
  assert (find (fun p => Nat.eqb (fst p) (signal request')) (pending w1)
          = Some (mine, delay)) as ->.
  { apply find_fresh, absent_fresh, w_ok. }
  cbn [snd].
  destruct (N.leb delay (reply_after (net request'))); [reflexivity|].
  destruct (net request') as [after body_after json|after error]; [|reflexivity].
  cbn [fst snd].
  assert (nth_error (timers (elapsed after w1))
                    (List.length (timers (pushed (next_handle w)
                                            (scheduled (timeout cfg) w))) - 1)
          = Some mine) as ->.
  { cbn [timers elapsed started traced pushed scheduled].
    rewrite length_app. cbn [List.length].
    replace (List.length (timers w) + 1 - 1) with (List.length (timers w)) by lia.
    rewrite nth_error_app2 by lia. now rewrite Nat.sub_diag. }
  unfold clearTimeout. now destruct json.
Qed.

Lemma timers_elapsed (d : N) (v : world) : timers (elapsed d v) = timers v.
Proof. reflexivity. Qed.

Lemma timers_started : timers w1 = timers w ++ [mine].
Proof. reflexivity. Qed.

Lemma pending_started : pending w1 = pending w ++ [(mine, delay)].
Proof. reflexivity. Qed.

(** Once the delay of the timer has gone by, the timer is armed no more. *)
Lemma armed_due (d : N) : (delay <= d)%N -> armed mine (elapsed d w1) = false.
Proof.
  intros Hd. unfold armed. cbn [pending elapsed]. rewrite pending_started.
  apply (absent_map mine (fun left => (left - d)%N)).
  rewrite filter_app. apply absent_app.
  - apply absent_filter, absent_fresh, w_ok.
  - cbn. apply N.leb_le in Hd. now rewrite Hd.
Qed.

(** Nor is it once cleared, whatever time goes by before and after. *)
Lemma armed_cleared (d d' : N) :
  armed mine (elapsed d' (cleared mine (elapsed d w1))) = false.
Proof.
  unfold armed. cbn [pending elapsed cleared].
  apply (absent_map mine (fun left => (left - d')%N)).
  apply absent_filter, absent_disarm.
Qed.

(** A transport that fails before the timer is due leaves it armed. *)
Lemma armed_early (d : N) : (d < delay)%N -> armed mine (elapsed d w1) = true.
Proof.
  intros Hd. unfold armed. cbn [pending elapsed]. rewrite pending_started.
  rewrite filter_app, map_app, existsb_app.
  apply orb_true_iff. right. cbn.
  apply N.leb_gt in Hd. rewrite Hd. cbn. now rewrite Nat.eqb_refl.
Qed.

Lemma fetch_timers : timers (snd result) = timers w ++ [mine].
Proof.
  rewrite fetch_eq.
  destruct (N.leb delay (reply_after (net request'))); [reflexivity|].
  now destruct (net request').
Qed.

Lemma fetch_outcome :
  fst result =
  match path_of delay (net request') with
  | Timeout => Throw abort_error
  | _ => match net request' with
         | Responds _ _ json => settle json
         | Fails _ error => Throw error
         end
  end.
Proof.
  rewrite fetch_eq. unfold path_of.
  destruct (N.leb delay (reply_after (net request'))); [reflexivity|].
  now destruct (net request') as [? ? [|]|].
Qed.

Lemma fetch_armed :
  armed mine (snd result) = is_transport_failure (path_of delay (net request')).
Proof.
  rewrite fetch_eq. unfold path_of.
  destruct (N.leb delay (reply_after (net request'))) eqn:E.
  - cbn [snd is_transport_failure]. apply armed_due. lia.
  - apply N.leb_gt in E.
    destruct (net request') as [after body_after [data|error]|after error];
      cbn [snd is_transport_failure reply_after] in *;
      auto using armed_cleared, armed_early.
Qed.

Lemma wf_elapsed (d : N) (v : world) : wf v = true -> wf (elapsed d v) = true.
Proof.
  unfold wf. cbn [pending next_handle elapsed].
  generalize (next_handle v) as n. intros n.
  induction (pending v) as [|[a b] l IH]; cbn; [reflexivity|].
  intros H. apply andb_true_iff in H as [Ha Hl].
  destruct (N.leb b d); cbn; [|rewrite Ha]; auto.
Qed.

Lemma wf_cleared (h : handle) (v : world) : wf v = true -> wf (cleared h v) = true.
Proof.
  unfold wf. cbn [pending next_handle cleared]. unfold disarm.
  generalize (next_handle v) as n. intros n.
  induction (pending v) as [|[a b] l IH]; cbn; [reflexivity|].
  intros H. apply andb_true_iff in H as [Ha Hl].
  destruct (Nat.eqb a h); cbn; [|rewrite Ha]; auto.
Qed.

Lemma wf_started : wf w1 = true.
Proof.
  unfold wf. rewrite pending_started. cbn [next_handle started traced pushed scheduled].
  rewrite forallb_app. apply andb_true_iff. split.
  - apply forallb_forall. intros p Hp.
    pose proof (proj1 (forallb_forall _ _) w_ok p Hp) as H.
    apply Nat.ltb_lt in H. apply Nat.ltb_lt. lia.
  - cbn. now rewrite Nat.leb_refl.
Qed.

(** The invariant of the world is kept by the call. *)
Lemma fetch_wf : wf (snd result) = true.
Proof.
  rewrite fetch_eq.
  destruct (N.leb delay (reply_after (net request')));
    [|destruct (net request')]; cbn [snd];
    auto using wf_elapsed, wf_cleared, wf_started.
Qed.

End Fetch.

Lemma wf_initial : wf initial = true.
Proof. reflexivity. Qed.

(** An argument refused leaves the world as it was. *)
Lemma fetch_refuses (cfg : config) (net : request -> reply)
      (abort_error address method body : value) (w : world) :
  Is.string method && Is.json body = false ->
  fetch cfg net abort_error address method body w =
  (Throw (new_Error (VStr (if Is.string method
                           then "Invalid parameter: expected object"
                           else "Invalid parameter: expected string"))), w).
Proof.
  unfold fetch. destruct (Is.string method); cbn [negb andb].
  - intros ->. reflexivity.
  - reflexivity.
Qed.

(** Accepted or refused, a call keeps the invariant of the world. *)
Lemma fetch_keeps_wf (cfg : config) (net : request -> reply)
      (abort_error address method body : value) (w : world) :
  wf w = true -> wf (snd (fetch cfg net abort_error address method body w)) = true.
Proof.
  intros Hw.
  destruct (Is.string method && Is.json body) eqn:E.
  - apply andb_true_iff in E as [Hm Hb]. now apply fetch_wf.
  - now rewrite fetch_refuses.
Qed.

(** C5: when [method] is not a string or [body] is not JSON text, the call
    rejects with the error "Invalid parameter: ..." and the world is
    the one before the call: no timer armed, nothing sent, [timers] as it
    was. *)
Theorem fetch_invalid_parameter (cfg : config) (net : request -> reply)
        (abort_error address method body : value) (w : world) :
  Is.string method = false \/ Is.json body = false ->
  invalid_parameter (fst (fetch cfg net abort_error address method body w)) = true /\
  snd (fetch cfg net abort_error address method body w) = w.
Proof.
  intros H. rewrite fetch_refuses.
  - now destruct (Is.string method).
  - destruct H as [-> | ->]; [reflexivity|apply andb_false_r].
Qed.

Lemma fetch_invalid_parameter_witness :
  invalid_parameter
    (fst (fetch default_config Scenario.quick Scenario.AbortError Scenario.address
                (VStr "POST") (VStr "{invalid json") Scenario.busy)) = true /\
  snd (fetch default_config Scenario.quick Scenario.AbortError Scenario.address
             (VStr "POST") (VStr "{invalid json") Scenario.busy) = Scenario.busy.
Proof. apply fetch_invalid_parameter. right. reflexivity. Defined.

(** C6, as the code has it: with a string for [method] and no [body], the
    call rejects with "Invalid parameter: expected object", the world
    unchanged: [JSON.parse(undefined)] throws, and [body] is checked
    whether it is there or not. *)
Theorem fetch_without_body (cfg : config) (net : request -> reply)
        (abort_error address : value) (method : string) (w : world) :
  fetch cfg net abort_error address (VStr method) VUndefined w =
  (Throw (new_Error (VStr "Invalid parameter: expected object")), w).
Proof. reflexivity. Qed.

(** C6 as the claim has it fails: a GET without body is refused. *)
Lemma fetch_without_body_refused :
  Is.string (VStr "GET") = true /\
  ~ invalid_parameter
      (fst (fetch default_config Scenario.quick Scenario.AbortError
                  Scenario.address (VStr "GET") VUndefined initial)) = false.
Proof. split; [reflexivity|]. cbn. discriminate. Qed.

(** C1, as the code has it: a call whose transport takes longer than the
    delay of the timer rejects with the abort error of the transport,
    thrown on as it came; afterwards the timer of the call is in [timers]
    and is armed no more. *)
Theorem fetch_timeout_rejects (cfg : config) (net : request -> reply)
        (abort_error address method body : value) (w : world) :
  Is.string method = true -> Is.json body = true -> wf w = true ->
  (timer_delay (timeout cfg) < reply_after (net (sent address method body w)))%N ->
  fst (fetch cfg net abort_error address method body w) = Throw abort_error /\
  timers (snd (fetch cfg net abort_error address method body w))
    = timers w ++ [next_handle w] /\
  armed (next_handle w) (snd (fetch cfg net abort_error address method body w))
    = false.
Proof.
  intros Hm Hb Hw Hslow.
  assert (path_of (timer_delay (timeout cfg)) (net (sent address method body w))
          = Timeout) as Hp.
  { unfold path_of. apply N.lt_le_incl, N.leb_le in Hslow. now rewrite Hslow. }
  split; [|split].
  - rewrite fetch_outcome by assumption. now rewrite Hp.
  - now apply fetch_timers.
  - rewrite fetch_armed by assumption. now rewrite Hp.
Qed.

Lemma fetch_timeout_rejects_witness :
  fst (fetch default_config Scenario.slow Scenario.AbortError Scenario.address
             (VStr "POST") (VStr "{}") Scenario.busy) = Throw Scenario.AbortError /\
  timers (snd (fetch default_config Scenario.slow Scenario.AbortError
                     Scenario.address (VStr "POST") (VStr "{}") Scenario.busy))
    = timers Scenario.busy ++ [next_handle Scenario.busy] /\
  armed (next_handle Scenario.busy)
        (snd (fetch default_config Scenario.slow Scenario.AbortError
                    Scenario.address (VStr "POST") (VStr "{}") Scenario.busy))
    = false.
Proof. apply fetch_timeout_rejects; reflexivity. Defined.

(** C1 as the claim has it fails: the call whose transport needs 40 s under
    the timeout of 30 s does not resolve to any value, it rejects. *)
Lemma fetch_timeout_not_resolved :
  (timer_delay (timeout default_config)
   < reply_after (Scenario.slow (sent Scenario.address (VStr "POST") (VStr "{}") initial)))%N /\
  ~ exists outcome : value,
      fst (fetch default_config Scenario.slow Scenario.AbortError Scenario.address
                 (VStr "POST") (VStr "{}") initial) = Return outcome.
Proof.
  split; [reflexivity|].
  intros [outcome H]. vm_compute in H. discriminate H.
Qed.

(** C2, as the code has it: a call that passes the checks appends the
    handle of its timer to [timers] and never takes it out, so the array is
    one longer after the call, on every way out; on success, on a failure
    to parse and on timeout the timer is armed no more when the call
    returns. *)
Theorem fetch_registry_grows (cfg : config) (net : request -> reply)
        (abort_error address method body : value) (w : world) :
  Is.string method = true -> Is.json body = true -> wf w = true ->
  timers (snd (fetch cfg net abort_error address method body w))
    = timers w ++ [next_handle w] /\
  List.length (timers (snd (fetch cfg net abort_error address method body w)))
    = S (List.length (timers w)) /\
  (is_transport_failure
     (path_of (timer_delay (timeout cfg)) (net (sent address method body w))) = false ->
   armed (next_handle w) (snd (fetch cfg net abort_error address method body w))
     = false).
Proof.
  intros Hm Hb Hw. split; [|split].
  - now apply fetch_timers.
  - rewrite fetch_timers by assumption. rewrite length_app. cbn. lia.
  - intros Hp. rewrite fetch_armed by assumption. exact Hp.
Qed.

Lemma fetch_registry_grows_witness :
  timers (snd (fetch default_config Scenario.quick Scenario.AbortError
                     Scenario.address (VStr "POST") (VStr "{}") Scenario.busy))
    = [0; 1; 2] /\
  List.length (timers (snd (fetch default_config Scenario.quick Scenario.AbortError
                                  Scenario.address (VStr "POST") (VStr "{}")
                                  Scenario.busy)))
    = 3 /\
  armed 2 (snd (fetch default_config Scenario.quick Scenario.AbortError
                      Scenario.address (VStr "POST") (VStr "{}") Scenario.busy))
    = false.
Proof.
  destruct (fetch_registry_grows default_config Scenario.quick Scenario.AbortError
              Scenario.address (VStr "POST") (VStr "{}") Scenario.busy
              eq_refl eq_refl eq_refl) as (H1 & H2 & H3).
  split; [exact H1|split; [exact H2|exact (H3 eq_refl)]].
Defined.

(** C2 as the claim has it fails: after a call that succeeds [timers] is
    longer than before; and after a call whose transport fails the timer
    is still armed besides. *)
Lemma fetch_registry_not_restored :
  List.length (timers (snd (fetch default_config Scenario.quick Scenario.AbortError
                                  Scenario.address (VStr "POST") (VStr "{}") initial)))
    <> List.length (timers initial) /\
  List.length (timers (snd (fetch default_config Scenario.refused Scenario.AbortError
                                  Scenario.address (VStr "POST") (VStr "{}") initial)))
    <> List.length (timers initial) /\
  armed (next_handle initial)
        (snd (fetch default_config Scenario.refused Scenario.AbortError
                    Scenario.address (VStr "POST") (VStr "{}") initial)) = true.
Proof. repeat split; vm_compute; discriminate. Qed.

End FetchSpec.

(* ===================================================================== *)
(** ** exit                                                              *)
(* ===================================================================== *)

Module ExitSpec.
Import JS Service Notions.
Local Open Scope list_scope.

Lemma is_error_new_Error (message : value) : Is.error (new_Error message) = true.
Proof. now destruct message. Qed.

Lemma plain_converts : forall v : value, plain v = true -> throws v = false.
Proof.
  fix IH 1. intros [| | | | |items|props|name message props]; cbn [plain throws];
    intros H; try reflexivity.
  - induction items as [|x items IHitems]; [reflexivity|].
    cbn [forallb existsb] in *. apply andb_true_iff in H as [Hx Hitems].
    now rewrite (IH x Hx), IHitems.
  - now apply negb_true_iff.
  - apply andb_true_iff in H as [H _]. apply andb_true_iff in H as [H _].
    now apply negb_true_iff.
Qed.

Lemma log_error (proc : process) (error type : value) (w : world) :
  Is.error error = true -> throws error = false ->
  log proc error type w = (Return tt, traced (error_line proc error) w).
Proof.
  destruct error; try discriminate. intros _ H.
  cbv beta iota zeta delta [log Is.object Is.array Is.error negb andb is_type
                            String.eqb Ascii.eqb Bool.eqb joined existsb].
  rewrite H. reflexivity.
Qed.

(** An error whose conversion throws is not printed. *)
Lemma log_throws (proc : process) (error type : value) (w : world) :
  Is.error error = true -> throws error = true ->
  log proc error type w = (Throw cannot_convert, w).
Proof.
  destruct error; try discriminate. intros _ H.
  cbv beta iota zeta delta [log Is.object Is.array Is.error negb andb is_type
                            String.eqb Ascii.eqb Bool.eqb joined existsb].
  rewrite H. reflexivity.
Qed.

(** The loop of [exit] clears the handles of [timers] from first to last. *)
Lemma clear_loop (rest done : list handle) (v : world) :
  timers v = done ++ rest ->
  for_each (seq (List.length done) (List.length rest))
           (fun index => t <- timers_at index ;; clearTimeout t) v
  = (Return tt, drained rest v).
Proof.
  revert done v. induction rest as [|h rest IH]; intros done v Hv; [reflexivity|].
  cbn [List.length seq for_each].
  unfold bind at 1. unfold bind at 1. unfold timers_at at 1.
  rewrite Hv, nth_error_app2, Nat.sub_diag by lia.
  cbn [nth_error clearTimeout drained fold_left].
  specialize (IH (done ++ [h]) (cleared h v)).
  rewrite length_app, Nat.add_1_r in IH. apply IH.
  cbn [timers cleared]. rewrite Hv, <- app_assoc. reflexivity.
Qed.


Lemma drained_trace (l : list handle) (v : world) :
  trace (drained l v) = trace v ++ map EClearTimeout l.
Proof.
  revert v. induction l as [|h l IH]; intros v.
  - cbn. now rewrite app_nil_r.
  - change (trace (drained l (cleared h v)) = trace v ++ map EClearTimeout (h :: l)).
    rewrite IH. cbn. now rewrite <- app_assoc.
Qed.



Lemma coerced_error (message : value) : Is.error (coerced message) = true.
Proof.
  unfold coerced. destruct (Is.error message) eqn:E; [exact E|apply is_error_new_Error].
Qed.

Lemma coerced_converts (message : value) :
  throws message = false -> throws (coerced message) = false.
Proof.
  unfold coerced. destruct (Is.error message); [auto|]. now destruct message.
Qed.

(** The first statement of [exit] where no conversion throws. *)
Lemma coerce_eq (message : value) (w : world) :
  throws message = false ->
  (if negb (Is.error message) then lift (construct_Error message) else ret message) w
  = (Return (coerced message), w).
Proof.
  intros H. unfold coerced, construct_Error, lift, ret.
  destruct (Is.error message); cbn [negb]; [reflexivity|now rewrite H].
Qed.

Lemma exit_eq (proc : process) (message : value) (w : world) :
  throws message = false ->
  exit proc message w =
  (Exit 1, drained (timers w) (traced (error_line proc (coerced message)) w)).
Proof.
  intros H. unfold exit.
  unfold bind at 1. rewrite coerce_eq by exact H.
  unfold bind at 1.
  rewrite log_error by (apply coerced_error || now apply coerced_converts).
  unfold bind at 1. unfold timers_length at 1.
  change (timers (traced ?e w)) with (timers w).
  unfold bind at 1.
  pose proof (clear_loop (timers w) []
                (traced (error_line proc (coerced message)) w) eq_refl) as Hloop.
  change (List.length (@nil handle)) with 0 in Hloop. rewrite Hloop.
  reflexivity.
Qed.

(** Where the conversion of the message throws, [exit] throws with it,
    before anything is printed or cleared, and the process lives on. *)
Lemma exit_throws (proc : process) (message : value) (w : world) :
  throws message = true ->
  exit proc message w = (Throw cannot_convert, w).
Proof.
  intros H. unfold exit. unfold bind at 1.
  destruct (Is.error message) eqn:E; cbn [negb].
  - unfold ret. unfold bind at 1. now rewrite log_throws.
  - unfold lift, construct_Error. now rewrite H.
Qed.




End ExitSpec.

(* ===================================================================== *)
(** ** Timer                                                             *)
(* ===================================================================== *)

Module TimerSpec.
Import Service Notions.
Import Timer.
Local Open Scope Q_scope.

Lemma seconds_since (now time : hrtime) :
  seconds (hrtime_since now time) == seconds now - seconds time.
Proof.
  destruct now as [s n], time as [s' n'].
  unfold seconds, hrtime_since. cbn [fst snd].
  destruct (n - n' <? 0)%Z; cbn [fst snd];
    unfold Qeq, Qminus, Qplus, Qopp, inject_Z; cbn [Qnum Qden]; lia.
Qed.


(** The first [stop] after [start] (or [reset], or the constructor) gives
    the time gone by since, which is not negative. *)
Lemma stop_after_start (start_at now : hrtime) (timer : t) :
  normal start_at -> normal now -> before start_at now ->
  fst (stop now (start start_at timer)) == seconds now - seconds start_at /\
  0 <= fst (stop now (start start_at timer)).
Proof.
  intros Hs Hn Hb. cbn [stop start fst timestamp]. split.
  - apply seconds_since.
  - destruct now as [s n], start_at as [s' n'].
    unfold normal, before, seconds, hrtime_since in *. cbn [fst snd] in *.
    destruct (Z.ltb_spec (n - n') 0); cbn [fst snd];
      unfold Qle, Qplus, inject_Z; cbn [Qnum Qden]; lia.
Qed.

(** [stop] puts the time gone by where the time of the start was. *)
Lemma stop_overwrites (now : hrtime) (timer : t) :
  timestamp (snd (stop now timer)) = hrtime_since now (timestamp timer).
Proof. reflexivity. Qed.



(** C3, at a timer made at 100.25 s and stopped at 105.75 s, 106.75 s and
    107.75 s: the first [stop] gives the 5.5 s gone by, and leaves them as
    the timestamp; so the second gives 101.25 s, not 6.5 s, and the
    third gives 6.5 s, less than the second. *)
Theorem stop_again_not_elapsed :
  fst (stop Scenario.t1 (constructor Scenario.t0)) == 5.5 /\
  timestamp (snd (stop Scenario.t1 (constructor Scenario.t0))) = (5, 500000000)%Z /\
  fst (stop Scenario.t2 (snd (stop Scenario.t1 (constructor Scenario.t0)))) == 101.25 /\
  ~ fst (stop Scenario.t2 (snd (stop Scenario.t1 (constructor Scenario.t0))))
    == seconds Scenario.t2 - seconds Scenario.t0 /\
  fst (stop Scenario.t3
         (snd (stop Scenario.t2 (snd (stop Scenario.t1 (constructor Scenario.t0))))))
  < fst (stop Scenario.t2 (snd (stop Scenario.t1 (constructor Scenario.t0)))).
Proof. repeat split; vm_compute; congruence. Qed.

End TimerSpec.

(* ===================================================================== *)
(** ** execute                                                           *)
(* ===================================================================== *)

Module ExecuteSpec.
Import JS Service Database.
Local Open Scope list_scope.

(** The loop over the indices of an array copies it. *)
Lemma copy_loop (rest done acc : list value) :
  fold_left (fun array index => array ++ [get (VArr (done ++ rest)) index])
            (map Index (seq (List.length done) (List.length rest))) acc
  = acc ++ rest.
Proof.
  revert done acc. induction rest as [|x rest IH]; intros done acc.
  - cbn. now rewrite app_nil_r.
  - cbn [List.length seq map fold_left get].
    rewrite app_nth2, Nat.sub_diag by lia. cbn [nth].
    specialize (IH (done ++ [x]) (acc ++ [x])).
    rewrite length_app, Nat.add_1_r, <- !app_assoc in IH. exact IH.
Qed.

(** C7, as the code has it: when the query of the connection resolves with
    an array of rows, [execute] resolves with an array of the same rows in
    the same order, none left out and none added. *)
Theorem execute_returns_rows (cfg : config) (connection : connection)
        (query : value) (rows : list value) :
  connection {| sql := query; statement_timeout := timeout cfg |}
    = Resolved (VArr rows) ->
  execute cfg connection query = Return (VArr rows).
Proof.
  intros H. unfold execute. rewrite H. do 2 f_equal.
  exact (copy_loop rows [] []).
Qed.

Lemma execute_returns_rows_witness :
  execute default_config Scenario.one_row (VStr "SELECT 1")
  = Return (VArr [VObj [("1", VNum 1)]]).
Proof. apply execute_returns_rows. reflexivity. Defined.

(** C7 as the claim has it fails: the query of an INSERT succeeds with the
    packet of the driver and no row; [execute] does not return what the
    connection produced but an array of eight elements, the values of the
    packet's fields. *)
Lemma execute_packet_as_rows :
  Scenario.inserted {| sql := VStr "INSERT INTO log SET line = 1";
                       statement_timeout := timeout default_config |}
    = Resolved Scenario.packet /\
  execute default_config Scenario.inserted (VStr "INSERT INTO log SET line = 1")
    = Return (VArr [VNum 0; VNum 1; VNum 42; VNum 2; VNum 0; VStr ""; VBool true;
                    VNum 0]) /\
  execute default_config Scenario.inserted (VStr "INSERT INTO log SET line = 1")
    <> Return Scenario.packet.
Proof. repeat split. discriminate. Qed.

(** Whatever the name and the message of an error the query rejects with,
    the error thrown is the same: they are not in its message. *)
Lemma execute_ignores_message (cfg : config) (query : value)
      (name message name' message' : string) (props : list (string * value)) :
  execute cfg (fun _ => Rejected (VErr name message props)) query
  = execute cfg (fun _ => Rejected (VErr name' message' props)) query.
Proof. reflexivity. Qed.

(** A cause that is a string is in the message, quoted, after the
    statement, quoted. *)
Lemma execute_embeds_text (cfg : config) (query cause : string) :
  execute cfg (fun _ => Rejected (VStr cause)) (VStr query)
  = Throw (new_Error (VStr
      ("Unable to execute database query: {" ++
       ((quote "sql" ++ ":" ++ quote query) ++ "," ++
        (quote "error" ++ ":" ++ quote cause)) ++ "}")%string)).
Proof. reflexivity. Qed.

(** C4, at the connection that rejects with [new Error("table not found")]:
    the message of the error [execute] throws has the statement in it, and
    has [{}] for the cause; "table not found" is not in it. *)
Theorem execute_loses_cause_message :
  execute default_config Scenario.no_table (VStr "SELECT * FROM missing")
  = Throw (VErr "Error" Scenario.no_table_message []) /\
  Str.includes "SELECT * FROM missing" Scenario.no_table_message = true /\
  Str.includes "table not found" Scenario.no_table_message = false.
Proof. repeat split. Qed.

End ExecuteSpec.

(* ===================================================================== *)
(** ** UUID: the names that are hashed                                   *)
(* ===================================================================== *)

Module UuidSpec.
Import JS Service.

Lemma of_Z_inj (a b : Z) : Str.of_Z a = Str.of_Z b -> a = b.
Proof.
  unfold Str.of_Z. intros H.
  apply (f_equal NilEmpty.int_of_string) in H.
  rewrite !NilEmpty.isi in H. injection H as H.
  now apply DecimalZ.to_int_inj.
Qed.





End UuidSpec.

(* ===================================================================== *)
(** ** validate                                                          *)
(* ===================================================================== *)

Module ValidateSpec.
Import JS Validate.
Local Open Scope list_scope.

Lemma le_list_max (n : nat) (l : list nat) : In n l -> n <= list_max l.
Proof.
  intros H. pose proof (proj1 (list_max_le l (list_max l)) (Nat.le_refl _)) as F.
  rewrite Forall_forall in F. now apply F.
Qed.

Lemma depth_nth (i : nat) (items : list value) :
  depth (nth i items VUndefined) <= list_max (map depth items).
Proof.
  destruct (Nat.lt_ge_cases i (List.length items)) as [H | H].
  - apply le_list_max, in_map, nth_In, H.
  - rewrite nth_overflow by exact H. cbn. lia.
Qed.

Lemma depth_property (k : string) (props : list (string * value)) :
  depth (Database.property k props) <= list_max (map (fun p => depth (snd p)) props).
Proof.
  induction props as [|[k' x] props IH]; [cbn; lia|].
  cbn [Database.property map snd]. unfold list_max in *. cbn [fold_right].
  destruct (String.eqb k k'); lia.
Qed.

(** What is read out of a container is less deep than the container. *)
Lemma depth_lookup (v : value) (k : string) :
  container v = true -> depth (lookup v k) < depth v.
Proof.
  destruct v as [| | | | |items|props|name message props]; try discriminate; intros _.
  - cbn [lookup depth]. destruct (String.eqb k "length"); [cbn; lia|].
    destruct (index_of_key k (List.length items)); [|cbn; lia].
    pose proof (depth_nth n items). lia.
  - cbn [lookup depth]. pose proof (depth_property k props). lia.
  - cbn [lookup depth].
    destruct (existsb (String.eqb k) (map fst props)).
    + pose proof (depth_property k props). lia.
    + destruct (String.eqb k "message"); [cbn; lia|].
      destruct (String.eqb k "name"); cbn; lia.
Qed.

Lemma every_all (f : string -> option bool) (l : list string) :
  (forall k, In k l -> f k = Some true) -> every f l = Some true.
Proof.
  induction l as [|k l IH]; intros H; [reflexivity|].
  cbn. rewrite (H k (or_introl eq_refl)). apply IH.
  intros k' Hk'. apply H. now right.
Qed.

Lemma every_decided (f : string -> option bool) (l : list string) :
  (forall k, In k l -> f k <> None) -> every f l <> None.
Proof.
  induction l as [|k l IH]; intros H; [discriminate|].
  cbn. pose proof (H k (or_introl eq_refl)) as Hk.
  destruct (f k) as [[|]|]; try discriminate; [|congruence].
  apply IH. intros k' Hk'. apply H. now right.
Qed.

(** The test that sends [check] into the properties. *)
Lemma into_containers (value pattern : value) :
  truthy pattern && truthy value &&
  String.eqb (typeof pattern) "object" && String.eqb (typeof value) "object"
  = container pattern && container value.
Proof. destruct pattern, value; cbn; try reflexivity; now rewrite ?andb_false_r. Qed.

Lemma check_eq (fuel : nat) (value pattern : value) :
  check (S fuel) value pattern =
  if container pattern && container value
  then if Nat.leb (List.length (keys pattern)) (List.length (keys value))
       then every (fun key => check fuel (lookup value key) (lookup pattern key))
                  (keys pattern)
       else Some false
  else Some (String.eqb (typeof pattern) (typeof value)).
Proof. cbn [check]. now rewrite into_containers. Qed.

(** A fuel above the depth of the pattern is never used up. *)
Lemma check_decided (fuel : nat) (value pattern : value) :
  depth pattern < fuel -> check fuel value pattern <> None.
Proof.
  revert value pattern. induction fuel as [|fuel IH]; intros value pattern H; [lia|].
  rewrite check_eq.
  destruct (container pattern) eqn:Ep; [|discriminate].
  destruct (container value); [|discriminate]. cbn [andb].
  destruct (Nat.leb _ _); [|discriminate].
  apply every_decided. intros k _. apply IH.
  pose proof (depth_lookup pattern k Ep). lia.
Qed.

Lemma validate_eq (value pattern : value) :
  exists b, check (S (depth pattern)) value pattern = Some b /\
            validate value pattern = verdict b.
Proof.
  unfold validate.
  destruct (check (S (depth pattern)) value pattern) as [[|]|] eqn:E.
  - now exists true.
  - now exists false.
  - exfalso. revert E. apply check_decided. lia.
Qed.

Lemma check_refl (fuel : nat) (v : value) :
  depth v < fuel -> check fuel v v = Some true.
Proof.
  revert v. induction fuel as [|fuel IH]; intros v H; [lia|].
  rewrite check_eq. rewrite andb_diag.
  destruct (container v) eqn:Ev.
  - rewrite Nat.leb_refl. apply every_all. intros k _. apply IH.
    pose proof (depth_lookup v k Ev). lia.
  - now rewrite String.eqb_refl.
Qed.

(** X1.  Every value matches itself taken as the pattern. *)
Theorem validate_refl (v : value) : validate v v = Return (VBool true).
Proof. unfold validate. rewrite check_refl by lia. reflexivity. Qed.

Lemma every_refused (f : string -> option bool) (l : list string) (k : string) :
  (forall k', In k' l -> f k' <> None) -> In k l -> f k = Some false ->
  every f l = Some false.
Proof.
  induction l as [|k' l IH]; intros Hd Hk Hf; [destruct Hk|].
  cbn. destruct Hk as [-> | Hk]; [now rewrite Hf|].
  pose proof (Hd k' (or_introl eq_refl)) as Hk'.
  destruct (f k') as [[|]|]; try congruence.
  apply IH; auto. intros k'' H''. apply Hd. now right.
Qed.

Lemma property_app (k : string) (props extra : list (string * value)) :
  In k (map fst props) ->
  Database.property k (props ++ extra) = Database.property k props.
Proof.
  induction props as [|[k' x] props IH]; cbn; [tauto|].
  intros [-> | H]; [now rewrite String.eqb_refl|].
  destruct (String.eqb k k'); auto.
Qed.

Lemma index_key_inj (i j : nat) : index_key i = index_key j -> i = j.
Proof. unfold index_key. intros H. apply UuidSpec.of_Z_inj in H. lia. Qed.

Lemma index_key_not_length (i : nat) : String.eqb (index_key i) "length" = false.
Proof.
  apply String.eqb_neq. unfold index_key, Str.of_Z. intros H.
  apply (f_equal NilEmpty.int_of_string) in H.
  rewrite NilEmpty.isi in H. discriminate H.
Qed.

Lemma find_index_key (i m a : nat) :
  a <= i < a + m ->
  find (fun j => String.eqb (index_key j) (index_key i)) (seq a m) = Some i.
Proof.
  revert a. induction m as [|m IH]; intros a Ha; [lia|]. cbn [seq find].
  destruct (String.eqb_spec (index_key a) (index_key i)) as [E | E].
  - now apply index_key_inj in E as ->.
  - apply IH. assert (a <> i) by (intros ->; now apply E). lia.
Qed.

Lemma lookup_index (i : nat) (items : list value) :
  i < List.length items ->
  lookup (VArr items) (index_key i) = nth i items VUndefined.
Proof.
  intros H. cbn [lookup]. rewrite index_key_not_length.
  unfold index_of_key. rewrite find_index_key by lia. reflexivity.
Qed.

(** X2.  A value with the properties of the pattern, and more after them,
    matches the pattern: an object with further properties, an array with
    further elements. *)
Theorem validate_extension (props extra : list (string * value))
        (items more : list value) :
  validate (VObj (props ++ extra)) (VObj props) = Return (VBool true) /\
  validate (VArr (items ++ more)) (VArr items) = Return (VBool true).
Proof.
  split; unfold validate; rewrite check_eq; cbn [container andb keys].
  - rewrite !length_map, length_app.
    replace (Nat.leb _ _) with true by (symmetry; apply Nat.leb_le; lia).
    rewrite every_all; [reflexivity|].
    intros k Hk. cbn [lookup]. rewrite property_app by exact Hk.
    apply check_refl, (depth_lookup (VObj props) k eq_refl).
  - rewrite !length_map, !length_seq, length_app.
    replace (Nat.leb _ _) with true by (symmetry; apply Nat.leb_le; lia).
    rewrite every_all; [reflexivity|].
    intros k Hk. apply in_map_iff in Hk as (i & <- & Hi).
    apply in_seq in Hi.
    rewrite !lookup_index by (rewrite ?length_app; lia).
    rewrite app_nth1 by lia.
    apply check_refl. pose proof (depth_nth i items). cbn [depth]. lia.
Qed.

(** X3.  A value with fewer properties than the pattern is refused, whatever the
    properties are. *)
Theorem validate_fewer_keys (value pattern : value) :
  container value = true -> container pattern = true ->
  List.length (keys value) < List.length (keys pattern) ->
  validate value pattern = Throw mismatch.
Proof.
  intros Hv Hp Hl. unfold validate. rewrite check_eq, Hv, Hp. cbn [andb].
  replace (Nat.leb _ _) with false by (symmetry; apply Nat.leb_gt; exact Hl).
  reflexivity.
Qed.

Lemma validate_fewer_keys_witness :
  validate (VObj [("name", VStr "MediaServe")])
           (VObj [("name", VStr ""); ("port", VNum 0)]) = Throw mismatch.
Proof. apply validate_fewer_keys; [reflexivity|reflexivity|apply le_n]. Defined.

(** X4.  When the value or the pattern is not an array, an object or an error,
    nothing is compared but [typeof]: any two numbers match, any two
    strings, and [null] matches every array and object and is matched by
    them. *)
Theorem validate_typeof (value pattern : value) :
  container pattern && container value = false ->
  validate value pattern = verdict (String.eqb (typeof pattern) (typeof value)).
Proof.
  intros H. unfold validate. rewrite check_eq, H. reflexivity.
Qed.

Lemma validate_typeof_witness :
  validate (VArr [VNum 1; VNum 2]) VNull = verdict true.
Proof. apply (validate_typeof (VArr [VNum 1; VNum 2]) VNull). reflexivity. Defined.

(** X5.  A pattern without properties, [{}] or [[]], accepts the values whose
    [typeof] is object and no other: every object, array and error, and
    [null]. *)
Theorem validate_empty_pattern (value pattern : value) :
  container pattern = true -> keys pattern = [] ->
  validate value pattern = verdict (String.eqb (typeof value) "object").
Proof.
  intros Hp Hk. unfold validate. rewrite check_eq, Hp, Hk. cbn [andb].
  destruct value; try reflexivity; destruct pattern; try discriminate; reflexivity.
Qed.

Lemma validate_empty_pattern_witness :
  validate (VArr [VStr "a"]) (VObj []) = verdict true.
Proof. apply (validate_empty_pattern (VArr [VStr "a"]) (VObj [])); reflexivity. Defined.

(** X6.  An object without a property that the pattern has with a sample that is
    not [undefined] is refused, however many properties it has; the
    property is any but [__proto__], under which an object without one of
    that name reads its prototype, an object itself. *)
Theorem validate_missing_property (values props : list (string * value))
        (k : string) :
  k <> "__proto__" ->
  In k (map fst props) -> ~ In k (map fst values) ->
  typeof (Database.property k props) <> "undefined" ->
  validate (VObj values) (VObj props) = Throw mismatch.
Proof.
  intros _ Hk Hv Ht. unfold validate. rewrite check_eq. cbn [container andb keys].
  destruct (Nat.leb _ _); [|reflexivity].
  rewrite (every_refused _ _ k); [reflexivity| |exact Hk|].
  - intros k' _. apply check_decided, (depth_lookup (VObj props) k' eq_refl).
  - cbn [lookup].
    assert (Database.property k values = VUndefined) as ->.
    { clear -Hv. induction values as [|[k' x] values IH]; [reflexivity|].
      cbn in *. destruct (String.eqb_spec k k') as [-> | _]; [tauto|].
      apply IH. tauto. }
    pose proof (depth_lookup (VObj props) k eq_refl) as Hd. cbn [lookup] in Hd.
    destruct (depth (VObj props)) as [|fuel]; [lia|].
    rewrite check_eq. rewrite andb_false_r.
    f_equal. now apply String.eqb_neq.
Qed.

Lemma validate_missing_property_witness :
  validate (VObj [("host", VStr "127.0.0.1"); ("user", VStr "mediaserve")])
           (VObj [("host", VStr ""); ("port", VStr "")]) = Throw mismatch.
Proof.
  apply (validate_missing_property _ _ "port"); cbn.
  - discriminate.
  - tauto.
  - intros [H | [H | []]]; discriminate H.
  - discriminate.
Defined.

End ValidateSpec.

(* ===================================================================== *)
(** ** log                                                               *)
(* ===================================================================== *)

Module LogSpec.
Import JS Service Notions.
Local Open Scope list_scope.

(** X7.  An error given alone, whose conversion to a string is plain, is
    printed by [console.error] under the tag ERROR whatever [type] says,
    and nothing else happens. *)
Theorem log_error_overrides_type (proc : process) (error type : value) (w : world) :
  Is.error error = true -> plain error = true ->
  log proc error type w = (Return tt, traced (error_line proc error) w).
Proof.
  intros He Hp. apply ExitSpec.log_error; [exact He|].
  now apply ExitSpec.plain_converts.
Qed.

Lemma log_error_overrides_type_witness :
  log Scenario.proc (VErr "TypeError" "fetch failed" []) (VStr "debug") initial
  = (Return tt,
     traced (error_line Scenario.proc (VErr "TypeError" "fetch failed" [])) initial).
Proof. apply log_error_overrides_type; reflexivity. Defined.

(** Of an [Error] the message alone is printed, the name and the colon
    before it cut off; an [Error] without message prints as Error. *)
Theorem log_error_text (proc : process) (message : string)
        (props : list (string * value)) :
  error_line proc (VErr "Error" message props)
  = EConsole ConsoleError
      [VStr (bright_red (date proc));
       VStr (dim "[" ++ Str.of_Z (pid proc) ++ dim "]")%string;
       VStr (bright_red "ERROR");
       VStr (red (if Str.is_empty message then "Error" else message));
       VStr color.reset].
Proof. unfold error_line. now destruct message. Qed.

(** X8.  [exit] called with a text prints that very text: the name that
    [new Error] puts before it is the one [log] cuts off.  The empty text
    prints as Error. *)
Theorem exit_prints_text (proc : process) (text : string) (w : world) :
  trace (snd (exit proc (VStr text) w))
  = trace w ++
    EConsole ConsoleError
      [VStr (bright_red (date proc));
       VStr (dim "[" ++ Str.of_Z (pid proc) ++ dim "]")%string;
       VStr (bright_red "ERROR");
       VStr (red (if Str.is_empty text then "Error" else text));
       VStr color.reset]
    :: map EClearTimeout (timers w).
Proof.
  rewrite ExitSpec.exit_eq by reflexivity.
  cbn [snd coerced Is.error new_Error ToString].
  rewrite ExitSpec.drained_trace. cbn [trace traced timers].
  rewrite log_error_text, <- app_assoc. reflexivity.
Qed.

End LogSpec.

(* ===================================================================== *)
(** ** fetch: what else a call does, and does not                        *)
(* ===================================================================== *)

Module FetchMore.
Import JS Service Notions.
Local Open Scope list_scope.

Lemma disarm_through (h : handle) (g : N -> N) (f : handle * N -> bool)
      (l : list (handle * N)) :
  disarm h (map (fun p => (fst p, g (snd p))) (filter f l))
  = map (fun p => (fst p, g (snd p))) (filter f (disarm h l)).
Proof.
  unfold disarm. induction l as [|[a b] l IH]; [reflexivity|].
  cbn [filter fst]. destruct (f (a, b)) eqn:Ef, (Nat.eqb a h) eqn:Ea;
    cbn [map filter fst snd negb]; rewrite ?Ea, ?Ef; cbn [map negb];
    now rewrite IH.
Qed.

Lemma disarm_absent (h : handle) (l : list (handle * N)) :
  absent h l -> disarm h l = l.
Proof.
  unfold absent, disarm. induction l as [|[a b] l IH]; [reflexivity|].
  cbn. intros H. apply orb_false_iff in H as [Ha Hl].
  rewrite Ha. cbn. now rewrite IH.
Qed.

Lemma disarm_snoc (h : handle) (d : N) (l : list (handle * N)) :
  absent h l -> disarm h (l ++ [(h, d)]) = l.
Proof.
  intros H. unfold disarm. rewrite filter_app. cbn.
  rewrite Nat.eqb_refl. cbn. rewrite app_nil_r. now apply disarm_absent.
Qed.

Lemma disarm_idem (h : handle) (l : list (handle * N)) :
  disarm h (disarm h l) = disarm h l.
Proof. apply disarm_absent, FetchSpec.absent_disarm. Qed.

(** Time that goes by in two parts goes by as a whole. *)
Lemma elapsed_twice (d d' : N) (l : list (handle * N)) :
  map (fun p => (fst p, (snd p - d')%N))
      (filter (fun p => negb (N.leb (snd p) d'))
              (map (fun p => (fst p, (snd p - d)%N))
                   (filter (fun p => negb (N.leb (snd p) d)) l)))
  = map (fun p => (fst p, (snd p - (d + d'))%N))
        (filter (fun p => negb (N.leb (snd p) (d + d'))) l).
Proof.
  induction l as [|[a b] l IH]; [reflexivity|].
  cbn [filter snd].
  destruct (N.leb_spec b d) as [H | H]; cbn [negb].
  - destruct (N.leb_spec b (d + d')) as [_ | H']; [exact IH | lia].
  - cbn [map filter fst snd].
    destruct (N.leb_spec (b - d) d') as [H' | H'];
      destruct (N.leb_spec b (d + d')) as [H'' | H'']; try lia; cbn [negb map fst snd].
    + exact IH.
    + rewrite IH. do 2 f_equal. lia.
Qed.

Section Fetch.

Variable cfg : config.
Variable net : request -> reply.
Variable abort_error : value.
Variables address method' body' : value.
Variable w : world.

Local Abbreviation mine := (next_handle w).
Local Abbreviation delay := (timer_delay (timeout cfg)).
Local Abbreviation request' := (sent address method' body' w).
Local Abbreviation w1 := (started cfg address method' body' w).
Local Abbreviation result := (fetch cfg net abort_error address method' body' w).

Hypothesis method_ok : Is.string method' = true.
Hypothesis body_ok : Is.json body' = true.
Hypothesis w_ok : wf w = true.

Lemma fresh : absent mine (pending w).
Proof. apply FetchSpec.absent_fresh, w_ok. Qed.

Lemma others_started (d : N) :
  disarm mine (pending (elapsed d w1)) = pending (elapsed d w).
Proof.
  cbn [pending elapsed started traced pushed scheduled].
  rewrite (disarm_through mine (fun x => (x - d)%N)).
  now rewrite (disarm_snoc _ _ _ fresh).
Qed.

Lemma fetch_others :
  disarm mine (pending (snd result))
  = pending (elapsed (duration delay (net request')) w).
Proof.
  rewrite FetchSpec.fetch_eq by assumption. unfold duration.
  destruct (N.leb delay (reply_after (net request'))); [apply others_started|].
  destruct (net request') as [after body_after json|after error];
    [|apply others_started].
  cbn [snd]. cbn [pending elapsed cleared].
  rewrite (disarm_through mine (fun x => (x - body_after)%N)), disarm_idem.
  change (disarm mine (map _ (filter _ (pending w1))))
    with (disarm mine (pending (elapsed after w1))).
  rewrite others_started. cbn [pending elapsed]. apply elapsed_twice.
Qed.

Lemma quiet_fired (l : list (handle * N)) :
  forallb quiet (map (fun p => EFired (fst p)) l) = true.
Proof. induction l; [reflexivity|exact IHl]. Qed.

Lemma fetch_events :
  exists rest,
    trace (snd result)
    = trace w ++ [ESetTimeout mine delay; ERequest request'] ++ rest /\
    forallb quiet rest = true.
Proof.
  rewrite FetchSpec.fetch_eq by assumption.
  assert (forall l, (trace w ++ [ESetTimeout mine delay]) ++ [ERequest request'] ++ l
                    = trace w ++ [ESetTimeout mine delay; ERequest request'] ++ l)
    as Hflat by (intros l; now rewrite <- app_assoc).
  destruct (N.leb delay (reply_after (net request')));
    [|destruct (net request') as [after body_after json|after error]];
    cbn [snd trace elapsed cleared started traced pushed scheduled];
    rewrite <- ?app_assoc; eexists; (split; [rewrite <- Hflat, <- ?app_assoc; reflexivity|]);
    rewrite ?forallb_app, ?quiet_fired; reflexivity.
Qed.

End Fetch.

(** X9.  A call whose transport settles before the timer is due ends as the
    transport and the reading of the body end: with the data parsed, or
    with the very error of the parser or of the transport.  The time the
    body takes is not counted against the timeout. *)
Theorem fetch_settles_in_time (cfg : config) (net : request -> reply)
        (abort_error address method body : value) (w : world) :
  Is.string method = true -> Is.json body = true -> wf w = true ->
  (reply_after (net (sent address method body w)) < timer_delay (timeout cfg))%N ->
  fst (fetch cfg net abort_error address method body w)
  = match net (sent address method body w) with
    | Responds _ _ json => settle json
    | Fails _ error => Throw error
    end.
Proof.
  intros Hm Hb Hw Hquick. rewrite FetchSpec.fetch_outcome by assumption.
  unfold path_of. apply N.leb_gt in Hquick. rewrite Hquick.
  now destruct (net (sent address method body w)) as [? ? [|]|].
Qed.

Lemma fetch_settles_in_time_witness :
  fst (fetch default_config
             (fun _ => Responds 120 45000 (Resolved (VArr [VNum 1])))
             Scenario.AbortError Scenario.address (VStr "POST") (VStr "[]")
             Scenario.busy)
  = Return (VArr [VNum 1]).
Proof.
  exact (fetch_settles_in_time default_config
           (fun _ => Responds 120 45000 (Resolved (VArr [VNum 1])))
           Scenario.AbortError Scenario.address (VStr "POST") (VStr "[]")
           Scenario.busy eq_refl eq_refl eq_refl eq_refl).
Defined.

(** X10.  A call leaves the timers of other calls alone: but for its own, the
    timers armed after the call are those that the time the call took
    would have left armed anyway, with the time left that it would have
    left them. *)
Theorem fetch_spares_other_timers (cfg : config) (net : request -> reply)
        (abort_error address method body : value) (w : world) :
  Is.string method = true -> Is.json body = true -> wf w = true ->
  disarm (next_handle w)
         (pending (snd (fetch cfg net abort_error address method body w)))
  = pending (elapsed (duration (timer_delay (timeout cfg))
                               (net (sent address method body w))) w).
Proof. intros. now apply fetch_others. Qed.

Lemma fetch_spares_other_timers_witness :
  disarm 2 (pending (snd (fetch default_config Scenario.quick Scenario.AbortError
                                Scenario.address (VStr "POST") (VStr "{}")
                                Scenario.busy)))
  = [(0, 11875%N); (1, 28875%N)].
Proof.
  exact (fetch_spares_other_timers default_config Scenario.quick
           Scenario.AbortError Scenario.address (VStr "POST") (VStr "{}")
           Scenario.busy eq_refl eq_refl eq_refl).
Defined.

(** X11.  A call that passes the checks arms its timer, then sends one request,
    the one with the method and body given and the content type of JSON;
    after that it arms no timer and sends nothing. *)
Theorem fetch_arms_then_sends (cfg : config) (net : request -> reply)
        (abort_error address method body : value) (w : world) :
  Is.string method = true -> Is.json body = true -> wf w = true ->
  exists rest,
    trace (snd (fetch cfg net abort_error address method body w))
    = trace w ++
      [ESetTimeout (next_handle w) (timer_delay (timeout cfg));
       ERequest {| url := address; signal := next_handle w; method := method;
                   body := body;
                   headers := [("Content-Type", "application/json")%string] |}]
      ++ rest /\
    forallb quiet rest = true.
Proof. intros. now apply fetch_events. Qed.

Lemma fetch_arms_then_sends_witness :
  exists rest,
    trace (snd (fetch default_config Scenario.refused Scenario.AbortError
                      Scenario.address (VStr "POST") (VStr "{}") initial))
    = trace initial ++
      [ESetTimeout 0 30000;
       ERequest {| url := Scenario.address; signal := 0; method := VStr "POST";
                   body := VStr "{}";
                   headers := [("Content-Type", "application/json")%string] |}]
      ++ rest /\
    forallb quiet rest = true.
Proof.
  exact (fetch_arms_then_sends default_config Scenario.refused
           Scenario.AbortError Scenario.address (VStr "POST") (VStr "{}")
           initial eq_refl eq_refl eq_refl).
Defined.

Lemma tracked_sub (v v' : world) :
  (forall p, In p (pending v') -> exists p', In p' (pending v) /\ fst p' = fst p) ->
  (forall h, In h (timers v) -> In h (timers v')) ->
  tracked v = true -> tracked v' = true.
Proof.
  unfold tracked. intros Hp Ht Hv.
  apply forallb_forall. intros p Hin.
  destruct (Hp p Hin) as (p' & Hin' & E').
  pose proof (proj1 (forallb_forall _ _) Hv p' Hin') as H.
  apply existsb_exists in H as (h & Hh & E).
  apply existsb_exists. exists h. split; [now apply Ht|].
  unfold handle in *. congruence.
Qed.

Lemma tracked_elapsed (d : N) (v : world) :
  tracked v = true -> tracked (elapsed d v) = true.
Proof.
  apply tracked_sub; [|auto]. cbn [pending elapsed]. intros p Hp.
  apply in_map_iff in Hp as (p' & <- & Hp'). apply filter_In in Hp' as [Hp' _].
  now exists p'.
Qed.

Lemma tracked_cleared (h : handle) (v : world) :
  tracked v = true -> tracked (cleared h v) = true.
Proof.
  apply tracked_sub; [|auto]. cbn [pending cleared]. unfold disarm. intros p Hp.
  apply filter_In in Hp as [Hp _]. now exists p.
Qed.

Lemma tracked_started (cfg : config) (address method body : value) (w : world) :
  tracked w = true -> tracked (started cfg address method body w) = true.
Proof.
  unfold tracked. cbn [pending timers started traced pushed scheduled].
  intros H. rewrite forallb_app. apply andb_true_iff. split.
  - apply forallb_forall. intros p Hp.
    pose proof (proj1 (forallb_forall _ _) H p Hp) as E.
    rewrite existsb_app. apply orb_true_iff. left. exact E.
  - cbn. rewrite existsb_app. cbn. rewrite Nat.eqb_refl.
    now rewrite orb_true_r.
Qed.

(** X12.  Every armed timer has its handle in [timers] after a call if that was
    so before it, whatever the arguments and whatever the transport does. *)
Theorem fetch_keeps_tracked (cfg : config) (net : request -> reply)
        (abort_error address method body : value) (w : world) :
  wf w = true -> tracked w = true ->
  tracked (snd (fetch cfg net abort_error address method body w)) = true.
Proof.
  intros Hw Ht.
  destruct (Is.string method && Is.json body) eqn:E.
  - apply andb_true_iff in E as [Hm Hb].
    rewrite FetchSpec.fetch_eq by assumption.
    destruct (N.leb _ _); [|destruct (net _)]; cbn [snd];
      auto using tracked_elapsed, tracked_cleared, tracked_started.
  - now rewrite FetchSpec.fetch_refuses.
Qed.

Lemma fetch_keeps_tracked_witness :
  tracked (snd (fetch default_config Scenario.refused Scenario.AbortError
                      Scenario.address (VStr "POST") (VStr "{}") Scenario.busy))
  = true.
Proof. apply fetch_keeps_tracked; reflexivity. Defined.




(** X14.  A body that is an object and not its JSON text is refused, with the
    message that an object was expected: [JSON.parse] is given the text
    [[object Object]]. *)
Theorem fetch_refuses_object_body (cfg : config) (net : request -> reply)
        (abort_error address : value) (method : string)
        (props : list (string * value)) (w : world) :
  fetch cfg net abort_error address (VStr method) (VObj props) w
  = (Throw (new_Error (VStr "Invalid parameter: expected object")), w).
Proof.
  unfold fetch. cbn [Is.string negb].
  assert (Is.json (VObj props) = false) as ->; [|reflexivity].
  unfold Is.json. apply andb_false_iff. now right.
Qed.

End FetchMore.

(* ===================================================================== *)
(** ** execute: results that are not arrays, and failures                *)
(* ===================================================================== *)

Module ExecuteMore.
Import JS Service Database.
Local Open Scope list_scope.

Lemma push_loop (f : key -> value) (l : list key) (acc : list value) :
  fold_left (fun array index => array ++ [f index]) l acc = acc ++ map f l.
Proof.
  revert acc. induction l as [|k l IH]; intros acc; cbn.
  - now rewrite app_nil_r.
  - now rewrite IH, <- app_assoc.
Qed.

Lemma property_own (props : list (string * value)) :
  NoDup (map fst props) ->
  map (fun p => property (fst p) props) props = map snd props.
Proof.
  induction props as [|[k x] props IH]; intros H; [reflexivity|].
  inversion H as [|? ? Hk Hr]; subst.
  cbn [map fst snd property]. rewrite String.eqb_refl. f_equal.
  rewrite <- (IH Hr). apply map_ext_in. intros [k' x'] Hin. cbn [fst].
  destruct (String.eqb_spec k' k) as [-> | _]; [|reflexivity].
  exfalso. apply Hk. now apply (in_map fst) in Hin.
Qed.

(** X19.  A result that is an object and not an array of rows, as a statement
    that selects nothing gives, comes back as the array of the values of
    its properties in their order; the names are gone. *)
Theorem execute_flattens_object (cfg : config) (connection : connection)
        (query : value) (props : list (string * value)) :
  NoDup (map fst props) ->
  connection {| sql := query; statement_timeout := timeout cfg |}
    = Resolved (VObj props) ->
  execute cfg connection query = Return (VArr (map snd props)).
Proof.
  intros Hk H. unfold execute. rewrite H. do 2 f_equal.
  rewrite push_loop. cbn [app for_in]. rewrite map_map. cbn [get].
  now apply property_own.
Qed.

Lemma execute_flattens_object_witness :
  execute default_config
          (fun _ => Resolved (VObj [("affectedRows", VNum 1); ("insertId", VNum 42)]))
          (VStr "INSERT INTO log VALUES (1)")
  = Return (VArr [VNum 1; VNum 42]).
Proof.
  apply (execute_flattens_object default_config _ _
           [("affectedRows", VNum 1); ("insertId", VNum 42)]); [|reflexivity].
  repeat constructor; cbn; intuition discriminate.
Defined.

(** X20.  A result that is [null], [undefined], a number or a boolean comes back
    as the empty array. *)
Theorem execute_no_rows (cfg : config) (connection : connection)
        (query results : value) :
  Validate.container results = false -> Is.string results = false ->
  connection {| sql := query; statement_timeout := timeout cfg |}
    = Resolved results ->
  execute cfg connection query = Return (VArr []).
Proof.
  intros Hc Hs H. unfold execute. rewrite H.
  now destruct results.
Qed.

Lemma execute_no_rows_witness :
  execute default_config (fun _ => Resolved VNull) (VStr "DO 1") = Return (VArr []).
Proof. apply (execute_no_rows default_config _ _ VNull); reflexivity. Defined.

Lemma append_assoc (a b c : string) : ((a ++ b) ++ c = a ++ b ++ c)%string.
Proof. induction a as [|x a IH]; cbn; [reflexivity|now rewrite IH]. Qed.

(** X21.  Whatever the query rejects with, [undefined] too, [execute] rejects
    with a new [Error], and its message opens with the fixed text and the
    statement as a JSON string under [sql]. *)
Theorem execute_wraps_failure (cfg : config) (connection : connection)
        (query : string) (cause : value) :
  connection {| sql := VStr query; statement_timeout := timeout cfg |}
    = Rejected cause ->
  exists rest,
    execute cfg connection (VStr query)
    = Throw (VErr "Error"
               ("Unable to execute database query: {" ++ quote "sql" ++ ":" ++
                quote query ++ rest)%string []).
Proof.
  intros H. unfold execute. rewrite H. unfold concat_json.
  cbn [stringify]. destruct (stringify cause) as [text|].
  - exists ("," ++ quote "error" ++ ":" ++ text ++ "}")%string.
    cbn [Str.join new_Error ToString].
    do 2 f_equal; rewrite ?append_assoc; reflexivity.
  - exists "}". cbn [Str.join new_Error ToString].
    do 2 f_equal; rewrite ?append_assoc; reflexivity.
Qed.

Lemma execute_wraps_failure_witness :
  exists rest,
    execute default_config Scenario.no_table_text (VStr "SELECT * FROM missing")
    = Throw (VErr "Error"
               ("Unable to execute database query: {" ++ quote "sql" ++ ":" ++
                quote "SELECT * FROM missing" ++ rest)%string []).
Proof. apply execute_wraps_failure with (cause := VStr "table not found"). reflexivity. Defined.

End ExecuteMore.

(* ===================================================================== *)
(** ** trim: what it takes away                                          *)
(* ===================================================================== *)

Module TrimMore.
Import Str Service Notions.

Lemma leading_split (s : string) :
  exists l, s = l ++ replace_leading_space s /\ all_space l = true.
Proof.
  induction s as [|c r (l & E & H)]; [now exists ""|].
  cbn [replace_leading_space]. destruct (is_space c) eqn:Ec.
  - exists (String c l). cbn. now rewrite Ec, <- E.
  - now exists "".
Qed.

Lemma trailing_split (s : string) :
  exists t, s = replace_trailing_space s ++ t /\ all_space t = true.
Proof.
  induction s as [|c r (t & E & H)]; [now exists ""|].
  cbn [replace_trailing_space].
  destruct (replace_trailing_space r) as [|d r'] eqn:Er.
  - cbn in E. subst r. destruct (is_space c) eqn:Ec.
    + exists (String c t). cbn. now rewrite Ec.
    + now exists t.
  - exists t. cbn in *. now rewrite <- E.
Qed.

(** X22.  [trim] takes the white space away from the two ends and nothing
    else: the message is white space, then its [trim], then white space,
    and no white space opens the [trim] or closes it. *)
Theorem trim_only_white_space (s : string) :
  headed (trim s) = true /\ tailed (trim s) = true /\
  exists l t, s = l ++ trim s ++ t /\ all_space l = true /\ all_space t = true.
Proof.
  split; [apply TrimSpec.headed_trim|]. split; [apply TrimSpec.tailed_trim|].
  destruct (leading_split s) as (l & El & Hl).
  destruct (trailing_split (replace_leading_space s)) as (t & Et & Ht).
  exists l, t. unfold trim. now rewrite <- Et.
Qed.

Lemma trailing_tailed (s : string) :
  tailed s = true -> replace_trailing_space s = s.
Proof.
  induction s as [|c r IH]; [reflexivity|].
  destruct r as [|d r'].
  - unfold tailed. cbn. intros H. apply negb_true_iff in H. now rewrite H.
  - rewrite TrimSpec.tailed_cons. intros H.
    cbn [replace_trailing_space] in *. now rewrite (IH H).
Qed.

(** X23.  [trim] leaves a message as it is exactly when no white space opens it
    and none closes it. *)
Theorem trim_fixed (s : string) :
  trim s = s <-> headed s = true /\ tailed s = true.
Proof.
  split.
  - intros E. rewrite <- E. split;
      [apply TrimSpec.headed_trim|apply TrimSpec.tailed_trim].
  - intros [Hh Ht]. unfold trim.
    rewrite (TrimSpec.leading_headed _ Hh). now apply trailing_tailed.
Qed.

Lemma trim_fixed_witness : trim "a b" = "a b".
Proof. apply trim_fixed. split; reflexivity. Defined.

End TrimMore.

(* ===================================================================== *)
(** ** Timer: a fresh timestamp                                          *)
(* ===================================================================== *)

Module TimerMore.
Import Service Notions.
Import Timer.
Local Open Scope Z_scope.



End TimerMore.

(* ===================================================================== *)
(** ** UUID: always a hash, of a name that tells the readings apart      *)
(* ===================================================================== *)

Module UuidMore.
Import JS Service.



End UuidMore.

(* ===================================================================== *)
(** ** The handlers of the API                                           *)
(* ===================================================================== *)

Module ServerSpec.
Import JS Server Notions.
Local Open Scope list_scope.

Lemma some_user_exists (k : option string) (us : list user) :
  some_user k us
  = existsb (fun u => loose_eq (key u) k && Validate.truthy (active u)) us.
Proof.
  induction us as [|u us IH]; [reflexivity|]. cbn.
  destruct (loose_eq (key u) k && Validate.truthy (active u)); [reflexivity|exact IH].
Qed.

Lemma some_domain_exists (k : option string) (domains : list namespace) :
  some_domain k domains
  = existsb (fun u => loose_eq (key u) k && Validate.truthy (active u))
            (all_users domains).
Proof.
  induction domains as [|d domains IH]; [reflexivity|].
  cbn [some_domain all_users flat_map]. rewrite existsb_app, <- some_user_exists.
  destruct (some_user k (users d)); [reflexivity|exact IH].
Qed.

(** X27.  Where the name of the schema, in lower case, is none that
    [Object.prototype] defines, the handler lets a request in exactly when
    it has headers and some user of some domain is active and has the key
    that the header of that name carries; every other request is thrown
    the object with status 403. *)
Theorem apiKey_lets_in (domains : list namespace) (request : request)
        (schema : schema) :
  inherited (toLowerCase (name schema)) = false ->
  apiKey domains request schema
  = match headers request with
    | Some hs =>
        if existsb (fun u => loose_eq (key u) (header (toLowerCase (name schema)) hs)
                             && Validate.truthy (active u))
                   (all_users domains)
        then Return (VBool true) else Throw forbidden
    | None => Throw forbidden
    end.
Proof.
  intros _. unfold apiKey. destruct (headers request); [|reflexivity].
  now rewrite some_domain_exists.
Qed.

Lemma apiKey_lets_in_witness :
  apiKey [ {| users := [ {| key := Some "22009b5d"; active := VBool false |} ] |};
           {| users := [ {| key := Some "c7452a1e"; active := VBool true |} ] |} ]
         {| headers := Some [("host", "127.0.0.1"); ("x-api-key", "c7452a1e")] |}
         {| name := "X-API-Key" |}
  = Return (VBool true).
Proof.
  exact (apiKey_lets_in
           [ {| users := [ {| key := Some "22009b5d"; active := VBool false |} ] |};
             {| users := [ {| key := Some "c7452a1e"; active := VBool true |} ] |} ]
           {| headers := Some [("host", "127.0.0.1"); ("x-api-key", "c7452a1e")] |}
           {| name := "X-API-Key" |} eq_refl).
Defined.

Lemma apiKey_no_header (domains : list namespace) (hs : list (string * string))
      (schema : schema) :
  header (toLowerCase (name schema)) hs = None ->
  some_domain (header (toLowerCase (name schema)) hs) domains
  = existsb (fun u => no_key u && Validate.truthy (active u)) (all_users domains).
Proof.
  intros ->. rewrite some_domain_exists.
  induction (all_users domains) as [|u us IH]; [reflexivity|].
  cbn [existsb]. rewrite IH. unfold no_key, loose_eq. now destruct (key u).
Qed.

(** X28.  A request that does not carry the header is let in exactly when some
    active user has no key: [undefined == undefined], and [null] too.  The
    name of the header, in lower case, is none that [Object.prototype]
    defines: under such a name the headers read a member of the prototype
    and not [undefined]. *)
Theorem apiKey_without_header (domains : list namespace) (request : request)
        (schema : schema) (hs : list (string * string)) :
  inherited (toLowerCase (name schema)) = false ->
  headers request = Some hs ->
  header (toLowerCase (name schema)) hs = None ->
  apiKey domains request schema
  = if existsb (fun u => no_key u && Validate.truthy (active u)) (all_users domains)
    then Return (VBool true) else Throw forbidden.
Proof.
  intros _ Hh Hk. unfold apiKey. rewrite Hh. cbv zeta.
  now rewrite (apiKey_no_header domains hs schema Hk).
Qed.

Lemma apiKey_without_header_witness :
  apiKey [ {| users := [ {| key := Some "22009b5d"; active := VBool true |};
                         {| key := None; active := VBool true |} ] |} ]
         {| headers := Some [("host", "127.0.0.1"); ("accept", "*/*")] |}
         {| name := "X-API-Key" |}
  = Return (VBool true).
Proof.
  exact (apiKey_without_header
           [ {| users := [ {| key := Some "22009b5d"; active := VBool true |};
                           {| key := None; active := VBool true |} ] |} ]
           {| headers := Some [("host", "127.0.0.1"); ("accept", "*/*")] |}
           {| name := "X-API-Key" |}
           [("host", "127.0.0.1"); ("accept", "*/*")] eq_refl eq_refl eq_refl).
Defined.

(** X29.  An error that has no array under [errors] is answered Bad Request,
    with its own [status] if that counts as true and with 400 if not; its
    own [message] is not sent. *)
Theorem errorMiddleware_bad_request (error : value) :
  Service.Is.array (guarded error "errors") = false ->
  errorMiddleware error
  = Responded
      (if Validate.truthy (guarded error "status")
       then Validate.lookup error "status" else VNum 400)
      (VObj [("code", if Validate.truthy (guarded error "status")
                      then Validate.lookup error "status" else VNum 400);
             ("message", VStr "Bad Request")]).
Proof.
  intros H. unfold errorMiddleware.
  destruct (guarded error "errors"); try discriminate H; reflexivity.
Qed.

Lemma errorMiddleware_bad_request_witness :
  errorMiddleware forbidden
  = Responded (VNum 403)
      (VObj [("code", VNum 403); ("message", VStr "Bad Request")]).
Proof. exact (errorMiddleware_bad_request forbidden eq_refl). Defined.

(** X30.  An error whose [errors] is an array that is empty, or that opens with
    [null] or [undefined], makes the handler throw a [TypeError]: no status
    is set and nothing is sent. *)
Theorem errorMiddleware_throws (error : value) (items : list value) :
  Validate.truthy error = true ->
  Validate.lookup error "errors" = VArr items ->
  Validate.member (nth 0 items VUndefined) "message" = None ->
  errorMiddleware error = TypeError.
Proof.
  intros Ht He Hm. unfold errorMiddleware, guarded. rewrite Ht, He, Hm.
  reflexivity.
Qed.

Lemma errorMiddleware_throws_witness :
  errorMiddleware (VObj [("status", VNum 400); ("errors", VArr [])]) = TypeError.
Proof.
  apply (errorMiddleware_throws _ []); reflexivity.
Defined.

End ServerSpec.

(* ===================================================================== *)
(** ** is.json accepts what JSON.stringify prints                        *)
(* ===================================================================== *)

Module RoundTrip.
Import JS Service Notions.

Lemma scan_quote_char (c : ascii) (tail : string) :
  scan_chars (quote_char c ++ tail) = scan_chars tail.
Proof.
  destruct c as [[|] [|] [|] [|] [|] [|] [|] [|]]; reflexivity.
Qed.

Lemma scan_quote_chars (s rest : string) :
  scan_chars (quote_chars s ++ Str.dq ++ rest) = Some rest.
Proof.
  induction s as [|c s IH]; [reflexivity|].
  cbn [quote_chars]. now rewrite ExecuteMore.append_assoc, scan_quote_char.
Qed.

Lemma scan_value_quote (fuel : nat) (r : string) :
  scan_value (S fuel) (Str.dq ++ r) = scan_of (scan_chars r).
Proof. reflexivity. Qed.

Lemma accepted_string (s : string) : accepted 1 (quote s).
Proof.
  split; [reflexivity|]. intros [|fuel] rest Hf _; [lia|].
  unfold quote. rewrite !ExecuteMore.append_assoc, scan_value_quote.
  now rewrite scan_quote_chars.
Qed.

Lemma prefix_self (w rest : string) : prefix w (w ++ rest) = true.
Proof.
  induction w as [|c w IH]; [now destruct rest|].
  cbn. now destruct (ascii_dec c c).
Qed.

Lemma drop_self (w rest : string) : Str.drop (length w) (w ++ rest) = rest.
Proof. induction w as [|c w IH]; [reflexivity|exact IH]. Qed.

Lemma scan_word_self (w rest : string) : scan_word w (w ++ rest) = Rest rest.
Proof. unfold scan_word. now rewrite prefix_self, drop_self. Qed.

Lemma accepted_null : accepted 1 "null".
Proof.
  split; [reflexivity|]. intros [|fuel] rest Hf _; [lia|].
  exact (scan_word_self "null" rest).
Qed.

Lemma accepted_true : accepted 1 "true".
Proof.
  split; [reflexivity|]. intros [|fuel] rest Hf _; [lia|].
  exact (scan_word_self "true" rest).
Qed.

Lemma accepted_false : accepted 1 "false".
Proof.
  split; [reflexivity|]. intros [|fuel] rest Hf _; [lia|].
  exact (scan_word_self "false" rest).
Qed.

Lemma skip_digits_uint (d : Decimal.uint) (rest : string) :
  skip_digits (NilEmpty.string_of_uint d ++ rest) = skip_digits rest.
Proof. induction d; cbn; auto. Qed.

Lemma after_number (rest : string) :
  delimited rest = true ->
  skip_digits rest = rest /\ scan_frac rest = Some rest /\ scan_exp rest = Some rest.
Proof.
  destruct rest as [|c r]; [now repeat split|]. cbn [delimited]. intros H.
  apply orb_true_iff in H as [H | H]; [apply orb_true_iff in H as [H | H]|];
    apply Ascii.eqb_eq in H; subst c; now repeat split.
Qed.

(** The decimal digits of a positive number do not open with a zero. *)
Lemma to_uint_head (p : positive) :
  match Pos.to_uint p with
  | Decimal.Nil | Decimal.D0 _ => False
  | _ => True
  end.
Proof.
  pose proof (DecimalPos.Unsigned.to_of (Pos.to_uint p)) as H.
  rewrite DecimalPos.Unsigned.of_to in H. cbn [N.to_uint] in H.
  pose proof (DecimalPos.Unsigned.to_uint_nonzero p) as Hz.
  pose proof (DecimalFacts.nzhead_nonzero (Pos.to_uint p)) as Hh.
  unfold Decimal.unorm in H.
  destruct (Decimal.nzhead (Pos.to_uint p)) eqn:E;
    try (rewrite H; exact I).
  - now rewrite H in Hz.
  - exfalso. now apply (Hh u).
Qed.

Lemma scan_value_number (fuel : nat) (c : ascii) (r : string) :
  is_digit c || Ascii.eqb c "-" = true ->
  scan_value (S fuel) (String c r) = scan_of (scan_number (String c r)).
Proof.
  destruct c as [[|] [|] [|] [|] [|] [|] [|] [|]]; try discriminate; reflexivity.
Qed.

Lemma scan_uint (d : Decimal.uint) (rest : string) :
  match d with Decimal.Nil | Decimal.D0 _ => False | _ => True end ->
  delimited rest = true ->
  scan_number (NilEmpty.string_of_uint d ++ rest) = Some rest /\
  scan_number ("-" ++ NilEmpty.string_of_uint d ++ rest) = Some rest.
Proof.
  intros Hd Hr. destruct (after_number rest Hr) as (Hs & Hf & He).
  destruct d; try contradiction;
    cbn [NilEmpty.string_of_uint append];
    unfold scan_number; cbn [scan_sign scan_int Ascii.eqb Bool.eqb is_digit
                             nat_of_ascii N_of_ascii N_of_digits N.to_nat
                             Pos.to_nat Pos.iter_op Nat.add Nat.leb andb
                             N.add N.mul Pos.add Pos.mul];
    rewrite ?skip_digits_uint, ?Hs;
    match goal with
    | |- context [is_digit ?c] => change (is_digit c) with true
    end;
    cbv iota; rewrite Hf; auto.
Qed.

Lemma scan_value_uint (fuel : nat) (d : Decimal.uint) (rest : string) :
  match d with Decimal.Nil | Decimal.D0 _ => False | _ => True end ->
  delimited rest = true ->
  opens_value (NilEmpty.string_of_uint d) = true /\
  scan_value (S fuel) (NilEmpty.string_of_uint d ++ rest) = Rest rest /\
  scan_value (S fuel) ("-" ++ NilEmpty.string_of_uint d ++ rest) = Rest rest.
Proof.
  intros Hd Hr. destruct (scan_uint d rest Hd Hr) as [Hp Hn].
  split; [now destruct d|]. split.
  - destruct d; try contradiction; cbn [NilEmpty.string_of_uint append] in *;
      rewrite scan_value_number by reflexivity; now rewrite Hp.
  - cbn [append] in *. rewrite scan_value_number by reflexivity. now rewrite Hn.
Qed.

Lemma accepted_number (z : Z) : accepted 1 (Str.of_Z z).
Proof.
  unfold Str.of_Z. destruct z as [|p|p]; cbn [Z.to_int NilEmpty.string_of_int].
  - split; [reflexivity|]. intros [|fuel] rest Hf Hr; [lia|].
    destruct (after_number rest Hr) as (Hs & Hf' & He).
    change (Decimal.zero) with (Decimal.D0 Decimal.Nil).
    cbn [NilEmpty.string_of_uint append].
    rewrite scan_value_number by reflexivity.
    unfold scan_number.
    change (scan_int (scan_sign (String "0" rest))) with (Some rest).
    cbv beta iota. now rewrite Hf', He.
  - pose proof (to_uint_head p) as Hd. split.
    + now destruct (Pos.to_uint p).
    + intros [|fuel] rest Hf Hr; [lia|].
      now apply scan_value_uint.
  - pose proof (to_uint_head p) as Hd. split.
    + reflexivity.
    + intros [|fuel] rest Hf Hr; [lia|].
      now apply scan_value_uint.
Qed.

Lemma accepted_more (n m : nat) (text : string) :
  n <= m -> accepted n text -> accepted m text.
Proof.
  intros Hm [Ho H]. split; [exact Ho|].
  intros fuel rest Hf Hr. apply H; [lia|exact Hr].
Qed.

Lemma skip_ws_opens (text rest : string) :
  opens_value text = true -> skip_ws (text ++ rest) = text ++ rest.
Proof.
  destruct text as [|c r]; [discriminate|]. cbn.
  now destruct (is_ws c).
Qed.

Lemma opens_join (t : string) (ts : list string) :
  opens_value t = true -> opens_value (Str.join "," (t :: ts)) = true.
Proof.
  destruct t as [|c r]; [discriminate|]. now destruct ts.
Qed.

(** The elements of an array, after the first bracket. *)
Lemma scan_elements_join (n : nat) (ts : list string) (rest : string) :
  ts <> [] -> Forall (accepted n) ts ->
  forall fuel, n + List.length ts <= fuel ->
    scan_elements fuel (Str.join "," ts ++ "]" ++ rest) = Rest rest.
Proof.
  induction ts as [|t ts IH]; [congruence|]. intros _ Hall fuel Hf.
  inversion Hall as [|? ? [Ho Ht] Hrest]; subst.
  destruct fuel as [|fuel]; [cbn in Hf; lia|]. cbn [List.length] in Hf.
  destruct ts as [|t' ts].
  - cbn [Str.join scan_elements].
    rewrite Ht by (auto; lia). reflexivity.
  - change (Str.join "," (t :: t' :: ts)) with (t ++ "," ++ Str.join "," (t' :: ts)).
    rewrite !ExecuteMore.append_assoc. cbn [scan_elements].
    rewrite Ht by (auto; lia).
    change (skip_ws ("," ++ ?x)) with (String "," x).
    cbv beta iota. change (Ascii.eqb "," ",") with true. cbv iota.
    inversion Hrest as [|? ? [Ho' _] _]; subst.
    rewrite skip_ws_opens by now apply opens_join.
    apply IH; [discriminate|exact Hrest|cbn [List.length] in *; lia].
Qed.

Lemma accepted_array (n : nat) (ts : list string) :
  Forall (accepted n) ts ->
  accepted (S (n + List.length ts)) ("[" ++ Str.join "," ts ++ "]").
Proof.
  intros Hall. split; [reflexivity|].
  intros [|fuel] rest Hf _; [lia|].
  rewrite !ExecuteMore.append_assoc.
  destruct ts as [|t ts]; [reflexivity|].
  inversion Hall as [|? ? [Ho _] _]; subst.
  pose proof (opens_join t ts Ho) as Hj.
  pose proof (scan_elements_join n (t :: ts) rest ltac:(discriminate) Hall fuel
                ltac:(lia)) as Hs.
  pose proof (skip_ws_opens _ ("]" ++ rest) Hj) as Hw.
  destruct (Str.join "," (t :: ts)) as [|c r] eqn:Ej; [discriminate|].
  cbn [append scan_value] in *.
  change (Ascii.eqb "[" "{") with false. change (Ascii.eqb "[" "[") with true.
  cbv iota. rewrite Hw.
  cbn [opens_value] in Hj.
  apply andb_true_iff in Hj as [Hj _]. apply andb_true_iff in Hj as [_ Hj].
  apply negb_true_iff in Hj. rewrite Hj. exact Hs.
Qed.

(** One member of an object, and what comes after it. *)
Lemma scan_member (n fuel : nat) (k t tail : string) :
  accepted n t -> n <= fuel -> delimited tail = true ->
  scan_members (S fuel) ((quote k ++ ":" ++ t) ++ tail)
  = match skip_ws tail with
    | "" => Reject
    | String e q =>
        if Ascii.eqb e "," then scan_members fuel (skip_ws q)
        else if Ascii.eqb e "}" then Rest q
        else Reject
    end.
Proof.
  intros [Ho Ht] Hf Hd. unfold quote. rewrite !ExecuteMore.append_assoc.
  change (Str.dq ++ ?x) with (String "034" x) at 1.
  cbn [scan_members]. change (Ascii.eqb "034" "034") with true. cbv iota.
  rewrite scan_quote_chars.
  change (skip_ws (":" ++ ?x)) with (String ":" x). cbv beta iota.
  change (Ascii.eqb ":" ":") with true. cbv iota.
  rewrite skip_ws_opens by exact Ho. now rewrite Ht.
Qed.

Lemma opens_member (n : nat) (m : string) (ms : list string) :
  accepted_member n m ->
  exists r, Str.join "," (m :: ms) = String "034" r.
Proof.
  intros (k & t & -> & _). unfold quote.
  destruct ms; cbn [Str.join]; rewrite ?ExecuteMore.append_assoc; eexists; reflexivity.
Qed.

Lemma scan_members_join (n : nat) (ms : list string) (rest : string) :
  ms <> [] -> Forall (accepted_member n) ms ->
  forall fuel, n + List.length ms <= fuel ->
    scan_members fuel (Str.join "," ms ++ "}" ++ rest) = Rest rest.
Proof.
  induction ms as [|m ms IH]; [congruence|]. intros _ Hall fuel Hf.
  pose proof (Forall_inv Hall) as (k & t & E & Ha).
  pose proof (Forall_inv_tail Hall) as Hrest. subst m.
  destruct fuel as [|fuel]; [cbn in Hf; lia|]. cbn [List.length] in Hf.
  destruct ms as [|m' ms].
  - cbn [Str.join]. rewrite (scan_member n) by (auto; lia). reflexivity.
  - change (Str.join "," ((quote k ++ ":" ++ t) :: m' :: ms))
      with ((quote k ++ ":" ++ t) ++ "," ++ Str.join "," (m' :: ms)).
    rewrite (ExecuteMore.append_assoc (quote k ++ ":" ++ t)).
    rewrite (scan_member n) by (auto; lia).
    change (skip_ws (("," ++ ?x) ++ ?y)) with (String "," (x ++ y)).
    cbv beta iota. change (Ascii.eqb "," ",") with true. cbv iota.
    pose proof (Forall_inv Hrest) as Hm'.
    destruct (opens_member n m' ms Hm') as (r & Er).
    rewrite Er. change (skip_ws (String "034" r ++ ?y)) with (String "034" r ++ y).
    rewrite <- Er.
    apply IH; [discriminate|exact Hrest|cbn [List.length] in *; lia].
Qed.

Lemma accepted_object (n : nat) (ms : list string) :
  Forall (accepted_member n) ms ->
  accepted (S (n + List.length ms)) ("{" ++ Str.join "," ms ++ "}").
Proof.
  intros Hall. split; [reflexivity|].
  intros [|fuel] rest Hf _; [lia|].
  rewrite !ExecuteMore.append_assoc.
  destruct ms as [|m ms]; [reflexivity|].
  pose proof (Forall_inv Hall) as Hm.
  pose proof (scan_members_join n (m :: ms) rest ltac:(discriminate) Hall fuel
                ltac:(lia)) as Hs.
  destruct (opens_member n m ms Hm) as (r & Er). rewrite Er in *.
  exact Hs.
Qed.

Lemma stringify_array (items : list value) :
  stringify (VArr items)
  = Some ("[" ++ Str.join "," (map element_of items) ++ "]").
Proof. reflexivity. Qed.

Lemma stringify_props (props : list (string * value)) :
  stringify (VObj props) = Some ("{" ++ Str.join "," (members_of props) ++ "}").
Proof. reflexivity. Qed.

Lemma stringify_error (name message : string) (props : list (string * value)) :
  stringify (VErr name message props) = stringify (VObj props).
Proof. reflexivity. Qed.

Lemma common_bound {A : Type} (P : nat -> A -> Prop) (l : list A) :
  (forall n m a, n <= m -> P n a -> P m a) ->
  Forall (fun a => exists n, P n a) l -> exists n, Forall (P n) l.
Proof.
  intros Hmono. induction 1 as [|a l [n Ha] _ [m Hl]]; [now exists 0|].
  exists (Nat.max n m). constructor.
  - apply (Hmono n); [lia|exact Ha].
  - apply Forall_forall. intros b Hb. rewrite Forall_forall in Hl.
    apply (Hmono m); [lia|now apply Hl].
Qed.

Lemma accepted_member_more (n m : nat) (text : string) :
  n <= m -> accepted_member n text -> accepted_member m text.
Proof.
  intros Hm (k & t & E & Ha). exists k, t. split; [exact E|].
  now apply (accepted_more n).
Qed.

(** What [JSON.stringify] prints is read as one value by the recogniser. *)
Lemma stringify_accepted (d : nat) (v : value) (text : string) :
  Validate.depth v <= d -> stringify v = Some text -> exists n, accepted n text.
Proof.
  revert v text. induction d as [|d IH]; intros v text Hd Hs.
  - destruct v as [| |[|]|z|s|items|props|name message props];
      try (cbn in Hd; lia); cbn [stringify] in Hs; try discriminate;
      injection Hs as <-; exists 1;
      auto using accepted_null, accepted_true, accepted_false,
                 accepted_number, accepted_string.
  - assert (forall items, list_max (map Validate.depth items) <= d ->
              exists n, accepted n ("[" ++ Str.join "," (map element_of items) ++ "]"))
      as Harr.
    { intros items Hi.
      destruct (common_bound accepted (map element_of items) accepted_more)
        as [n Hn].
      - apply Forall_forall. intros t Ht.
        apply in_map_iff in Ht as (x & <- & Hx). unfold element_of.
        destruct (stringify x) as [t|] eqn:E; [|exists 1; apply accepted_null].
        apply (IH x t); [|exact E].
        apply (in_map Validate.depth) in Hx.
        apply ValidateSpec.le_list_max in Hx. lia.
      - eexists. apply accepted_array, Hn. }
    assert (forall props,
              list_max (map (fun p => Validate.depth (snd p)) props) <= d ->
              exists n, accepted n ("{" ++ Str.join "," (members_of props) ++ "}"))
      as Hobj.
    { intros props Hp.
      destruct (common_bound accepted_member (members_of props) accepted_member_more)
        as [n Hn].
      - induction props as [|[k x] props IHp]; [constructor|].
        unfold list_max in Hp. cbn [map fold_right snd] in Hp.
        fold (list_max (map (fun p => Validate.depth (snd p)) props)) in Hp.
        cbn [members_of].
        destruct (stringify x) as [t|] eqn:E; [constructor|]; try (apply IHp; lia).
        destruct (IH x t ltac:(lia) E) as [n Hn]. exists n, k, t. now split.
      - eexists. apply accepted_object, Hn. }
    destruct v as [| |[|]|z|s|items|props|name message props];
      try (cbn [stringify] in Hs; try discriminate; injection Hs as <-; exists 1;
           auto using accepted_null, accepted_true, accepted_false,
                      accepted_number, accepted_string; fail).
    + rewrite stringify_array in Hs. injection Hs as <-.
      apply Harr. cbn [Validate.depth] in Hd. lia.
    + rewrite stringify_props in Hs. injection Hs as <-.
      apply Hobj. cbn [Validate.depth] in Hd. lia.
    + rewrite stringify_error, stringify_props in Hs. injection Hs as <-.
      apply Hobj. cbn [Validate.depth] in Hd. lia.
Qed.

(** More fuel changes nothing once the recogniser has answered. *)
Lemma scan_settled (fuel : nat) :
  settled_at scan_value fuel /\ settled_at scan_elements fuel /\
  settled_at scan_members fuel.
Proof.
  induction fuel as [|fuel (IHv & IHe & IHm)]; unfold settled_at in *.
  { repeat split; intros s H; now elim H. }
  repeat split; intros s H.
  - cbn [scan_value] in H. cbn [scan_value].
    destruct s as [|c q]; [reflexivity|].
    destruct (Ascii.eqb c "{").
    { destruct (skip_ws q) as [|d q']; [reflexivity|].
      destruct (Ascii.eqb d "}"); [reflexivity|]. now apply IHm. }
    destruct (Ascii.eqb c "[").
    { destruct (skip_ws q) as [|d q']; [reflexivity|].
      destruct (Ascii.eqb d "]"); [reflexivity|]. now apply IHe. }
    reflexivity.
  - cbn [scan_elements] in H.
    change (scan_elements (S (S fuel)) s)
      with (match scan_value (S fuel) s with
            | Rest r =>
                match skip_ws r with
                | "" => Reject
                | String d q =>
                    if Ascii.eqb d "," then scan_elements (S fuel) (skip_ws q)
                    else if Ascii.eqb d "]" then Rest q else Reject
                end
            | other => other
            end).
    change (scan_elements (S fuel) s)
      with (match scan_value fuel s with
            | Rest r =>
                match skip_ws r with
                | "" => Reject
                | String d q =>
                    if Ascii.eqb d "," then scan_elements fuel (skip_ws q)
                    else if Ascii.eqb d "]" then Rest q else Reject
                end
            | other => other
            end).
    rewrite IHv by (intros E; apply H; now rewrite E).
    destruct (scan_value fuel s) as [| |r]; try reflexivity.
    destruct (skip_ws r) as [|d q]; [reflexivity|].
    destruct (Ascii.eqb d ","); [now apply IHe|reflexivity].
  - cbn [scan_members] in H.
    destruct s as [|c q]; [reflexivity|].
    change (scan_members (S (S fuel)) (String c q))
      with (if Ascii.eqb c "034" then
              match scan_chars q with
              | None => Reject
              | Some r1 =>
                  match skip_ws r1 with
                  | "" => Reject
                  | String d r2 =>
                      if Ascii.eqb d ":" then
                        match scan_value (S fuel) (skip_ws r2) with
                        | Rest r3 =>
                            match skip_ws r3 with
                            | "" => Reject
                            | String e q =>
                                if Ascii.eqb e ","
                                then scan_members (S fuel) (skip_ws q)
                                else if Ascii.eqb e "}" then Rest q else Reject
                            end
                        | other => other
                        end
                      else Reject
                  end
              end
            else Reject).
    cbn [scan_members].
    destruct (Ascii.eqb c "034"); [|reflexivity].
    destruct (scan_chars q) as [r1|]; [|reflexivity].
    destruct (skip_ws r1) as [|d r2]; [reflexivity|].
    destruct (Ascii.eqb d ":"); [|reflexivity].
    rewrite IHv by (intros E; apply H; now rewrite E).
    destruct (scan_value fuel (skip_ws r2)) as [| |r3]; try reflexivity.
    destruct (skip_ws r3) as [|e q']; [reflexivity|].
    destruct (Ascii.eqb e ","); [now apply IHm|reflexivity].
Qed.

Lemma scan_settled_from (fuel more : nat) (s : string) :
  scan_value fuel s <> OutOfFuel -> scan_value (fuel + more) s = scan_value fuel s.
Proof.
  intros H. induction more as [|more IH]; [now rewrite Nat.add_0_r|].
  rewrite Nat.add_succ_r, <- IH.
  apply (scan_settled (fuel + more)). now rewrite IH.
Qed.

Lemma append_empty (s : string) : s ++ "" = s.
Proof. induction s as [|c s IH]; cbn; [reflexivity|now rewrite IH]. Qed.

Lemma accepted_parses (n : nat) (text : string) : accepted n text -> parses text = true.
Proof.
  intros [Ho H]. unfold parses.
  pose proof (skip_ws_opens text "" Ho) as Hw. rewrite append_empty in Hw.
  pose proof (JsonSpec.parses_fuel text) as Hf. rewrite Hw in *.
  rewrite <- (scan_settled_from _ n) by exact Hf.
  specialize (H (2 * length text + 1 + n) "" ltac:(lia) eq_refl).
  rewrite append_empty in H. now rewrite H.
Qed.

Lemma stringify_parses (v : value) (text : string) :
  stringify v = Some text -> parses text = true.
Proof.
  intros H. destruct (stringify_accepted (Validate.depth v) v text (le_n _) H) as [n Hn].
  exact (accepted_parses n text Hn).
Qed.

(** X15.  The text [JSON.stringify] gives for a value is JSON for [is.json]. *)
Theorem is_json_stringify (v : value) (text : string) :
  stringify v = Some text -> Is.json (VStr text) = true.
Proof. intros H. unfold Is.json. cbn [ToString]. exact (stringify_parses v text H). Qed.

Lemma is_json_stringify_witness :
  Is.json (VStr ("{" ++ Str.dq ++ "rows" ++ Str.dq ++ ":[1,null,{}]}")) = true.
Proof.
  apply (is_json_stringify (VObj [("rows", VArr [VNum 1; VUndefined; VObj []])])).
  reflexivity.
Defined.

(** X16.  [is.json] takes more than text: a number, a boolean and [null] are
    JSON once [JSON.parse] has made strings of them; [undefined] is not. *)
Theorem is_json_scalars (z : Z) (b : bool) :
  Is.json (VNum z) = true /\ Is.json (VBool b) = true /\
  Is.json VNull = true /\ Is.json VUndefined = false.
Proof.
  repeat split.
  - exact (accepted_parses 1 _ (accepted_number z)).
  - now destruct b.
Qed.

(** X17.  A body made by [JSON.stringify] passes the checks of [fetch]: the
    call arms its timer. *)
Theorem fetch_accepts_stringified (cfg : config) (net : request -> reply)
        (abort_error address : value) (method : string) (v : value)
        (text : string) (w : world) :
  stringify v = Some text -> wf w = true ->
  timers (snd (fetch cfg net abort_error address (VStr method) (VStr text) w))
  = (timers w ++ [next_handle w])%list.
Proof.
  intros H Hw. apply FetchSpec.fetch_timers; [reflexivity| |exact Hw].
  exact (stringify_parses v text H).
Qed.

Lemma fetch_accepts_stringified_witness :
  timers (snd (fetch default_config Scenario.quick Scenario.AbortError
                     Scenario.address (VStr "POST")
                     (VStr ("[" ++ Str.dq ++ "a" ++ Str.dq ++ ",true]"))
                     Scenario.busy))
  = [0; 1; 2].
Proof.
  exact (fetch_accepts_stringified default_config Scenario.quick
           Scenario.AbortError Scenario.address "POST"
           (VArr [VStr "a"; VBool true]) _ Scenario.busy eq_refl eq_refl).
Defined.

(** X18.  What follows the fixed text in the message of the error that
    [execute] throws is JSON. *)
Theorem execute_payload_is_json (cfg : Database.config)
        (connection : Database.connection) (query cause : value) :
  connection {| Database.sql := query;
                Database.statement_timeout := Database.timeout cfg |}
    = Rejected cause ->
  exists payload,
    Database.execute cfg connection query
    = Throw (VErr "Error" ("Unable to execute database query: " ++ payload) []) /\
    Is.json (VStr payload) = true.
Proof.
  intros H. unfold Database.execute. rewrite H. unfold Database.concat_json.
  destruct (stringify (VObj [("sql", query); ("error", cause)])) as [payload|] eqn:E;
    [|discriminate E].
  exists payload. split; [reflexivity|]. exact (stringify_parses _ _ E).
Qed.

Lemma execute_payload_is_json_witness :
  exists payload,
    Database.execute Database.default_config Scenario.no_table
                     (VStr "SELECT * FROM missing")
    = Throw (VErr "Error" ("Unable to execute database query: " ++ payload) []) /\
    Is.json (VStr payload) = true.
Proof.
  apply execute_payload_is_json with (cause := VErr "Error" "table not found" []).
  reflexivity.
Defined.

End RoundTrip.
